(** * RAG-ChatBot: chunking, ranking and groundedness validation

    A shallow embedding of the algorithmic core of the backend:
    - [utils/chunking_utils.py]  (module [ChunkingUtils]),
    - [services/retrieval_service.py]  (module [RetrievalService]),
    - [services/validation_service.py]  (module [ValidationService]),
    - [utils/validation.py]  (module [Validation]).

    Python [str] values are modelled as [string] (8-bit characters, so the
    development covers ASCII text), Python [int] as [Z], dictionaries with
    a fixed key set as records, and the [tiktoken] encoder as an interface
    ([Tokenizer]).

    The float literals of the validators and the results of the true
    division of two lengths are modelled as exact rationals [Q].  The
    validators only compare such a quotient with 0.3, 0.5 or 0.1; a
    quotient of two lengths that differs from the threshold differs from
    it by at least [1 / (10 * length)], far more than the rounding of a
    binary64 division for any length a text can have, so the comparisons
    come out as they do in Python. *)

From Stdlib Require Import Bool Arith ZArith QArith Qminmax Lia List Ascii String.
From Stdlib Require Import Permutation Sorted DecimalString DecimalNat DecimalZ Lqa.
Import ListNotations.

Local Open Scope list_scope.
Local Open Scope string_scope.

(** ** Python string primitives *)

Module PyStr.

(** [str.isspace] on the ASCII range: TAB..CR, FS..US and SPACE. *)
Definition isspace (c : ascii) : bool :=
  let n := nat_of_ascii c in
  ((9 <=? n) && (n <=? 13))%nat || ((28 <=? n) && (n <=? 32))%nat.

Definition lower_char (c : ascii) : ascii :=
  let n := nat_of_ascii c in
  if ((65 <=? n) && (n <=? 90))%nat then ascii_of_nat (n + 32) else c.

(** [s.lower()] *)
Fixpoint lower (s : string) : string :=
  match s with
  | EmptyString => EmptyString
  | String c r => String (lower_char c) (lower r)
  end.

(** Truthiness of a [str]: [if s:] *)
Definition truthy (s : string) : bool :=
  match s with EmptyString => false | String _ _ => true end.

Fixpoint lstrip (s : string) : string :=
  match s with
  | EmptyString => EmptyString
  | String c r => if isspace c then lstrip r else s
  end.

Fixpoint rstrip (s : string) : string :=
  match s with
  | EmptyString => EmptyString
  | String c r =>
      match rstrip r with
      | EmptyString => if isspace c then EmptyString else String c EmptyString
      | r' => String c r'
      end
  end.

(** [s.strip()] *)
Definition strip (s : string) : string := rstrip (lstrip s).

(** [needle in hay] *)
Fixpoint contains (needle hay : string) : bool :=
  prefix needle hay ||
  match hay with
  | EmptyString => false
  | String _ r => contains needle r
  end.

(** [any(p in s for p in phrases)] *)
Definition any_in (phrases : list string) (s : string) : bool :=
  existsb (fun p => contains p s) phrases.

Definition snoc (s : string) (c : ascii) : string := s ++ String c EmptyString.

(** [s.split()]: maximal runs of non-whitespace characters. *)
Fixpoint split_go (s cur : string) : list string :=
  match s with
  | EmptyString => if truthy cur then [cur] else []
  | String c r =>
      if isspace c
      then (if truthy cur then cur :: split_go r EmptyString
            else split_go r EmptyString)
      else split_go r (snoc cur c)
  end.

Definition split (s : string) : list string := split_go s EmptyString.

Definition is_terminator (c : ascii) : bool :=
  (c =? ".")%char || (c =? "!")%char || (c =? "?")%char.

(** [re.split(r'[.!?]+', s)]: the pieces between maximal runs of
    terminators; a run at either end leaves an empty piece there. *)
Fixpoint re_split_terminators_go (s cur : string) (in_run : bool) : list string :=
  match s with
  | EmptyString => [cur]
  | String c r =>
      if is_terminator c
      then (if in_run then re_split_terminators_go r cur true
            else cur :: re_split_terminators_go r EmptyString true)
      else re_split_terminators_go r (snoc cur c) false
  end.

Definition re_split_terminators (s : string) : list string :=
  re_split_terminators_go s EmptyString false.

(** Scanner state of [re.split(r'[.!?]+\s+', s)]: reading ordinary text,
    inside a run of terminators that may still turn into a separator, or
    inside the whitespace that closes a separator. *)
Inductive sep_state : Type :=
| Text
| TermRun (pending : string)
| Blank.

(** [re.split(r'[.!?]+\s+', s)].  A run of terminators is a separator only
    when whitespace follows; otherwise the run stays in the piece. *)
Fixpoint re_split_sentences_go (s cur : string) (st : sep_state) : list string :=
  match s with
  | EmptyString =>
      match st with
      | TermRun pending => [cur ++ pending]
      | _ => [cur]
      end
  | String c r =>
      match st with
      | Text =>
          if is_terminator c
          then re_split_sentences_go r cur (TermRun (String c EmptyString))
          else re_split_sentences_go r (snoc cur c) Text
      | TermRun pending =>
          if is_terminator c
          then re_split_sentences_go r cur (TermRun (snoc pending c))
          else if isspace c
          then cur :: re_split_sentences_go r EmptyString Blank
          else re_split_sentences_go r (snoc (cur ++ pending) c) Text
      | Blank =>
          if isspace c
          then re_split_sentences_go r cur Blank
          else if is_terminator c
          then re_split_sentences_go r cur (TermRun (String c EmptyString))
          else re_split_sentences_go r (snoc cur c) Text
      end
  end.

Definition re_split_sentences (s : string) : list string :=
  re_split_sentences_go s EmptyString Text.

(** [re.sub(r'\s+', ' ', s)] *)
Fixpoint collapse_ws (s : string) (in_ws : bool) : string :=
  match s with
  | EmptyString => EmptyString
  | String c r =>
      if isspace c
      then (if in_ws then collapse_ws r true else String " " (collapse_ws r true))
      else String c (collapse_ws r false)
  end.

(** [sep.join(parts)] *)
Fixpoint join (sep : string) (parts : list string) : string :=
  match parts with
  | [] => EmptyString
  | [p] => p
  | p :: rest => p ++ sep ++ join sep rest
  end.

(** [str(n)] for a non-negative and for an arbitrary Python [int]. *)
Definition str_of_nat (n : nat) : string := NilEmpty.string_of_uint (Nat.to_uint n).
Definition str_of_Z (z : Z) : string := NilZero.string_of_int (Z.to_int z).

(** [len(s)] *)
Definition len (s : string) : Z := Z.of_nat (String.length s).

(** [set(words)] as a duplicate-free list, and [a.intersection(b)]. *)
Definition py_set (l : list string) : list string := nodup string_dec l.

Definition intersection (a b : list string) : list string :=
  filter (fun w => existsb (String.eqb w) b) a.

(** Python slice [l[start:stop]] with its clamping of both bounds and its
    reading of negative bounds from the end. *)
Definition clamp_index (n i : Z) : Z :=
  if (i <? 0)%Z then Z.max 0 (n + i) else Z.min i n.

Definition py_slice {A : Type} (l : list A) (start stop : Z) : list A :=
  let n := Z.of_nat (List.length l) in
  let s := clamp_index n start in
  let e := clamp_index n stop in
  firstn (Z.to_nat (e - s)) (skipn (Z.to_nat s) l).

(** True division of two lengths, [a / b] with [b > 0]. *)
Definition py_div (a b : nat) : Q := Z.of_nat a # Pos.of_nat b.

Definition Qltb (x y : Q) : bool := negb (Qle_bool y x).

(** [min(a, b)] returns [b] only when [b < a]. *)
Definition py_min (a b : Q) : Q := if Qltb b a then b else a.

End PyStr.

(** ** utils/chunking_utils.py *)

Module ChunkingUtils.
Import PyStr.

(** The encoder obtained from [tiktoken.get_encoding]: the vocabulary is
    not part of the repository, so it is an interface. *)
Class Tokenizer : Type := {
  token : Type;
  encode : string -> list token;
  decode : list token -> string
}.

Definition clean_text (text : string) : string := strip (collapse_ws text false).

Section Chunking.
Context {T : Tokenizer}.

Definition ntokens (s : string) : Z := Z.of_nat (List.length (encode s)).

(** The [while start_idx < len(tokens)] loop of [chunk_text_by_tokens].
    [None] stands for a loop that has not ended within [fuel] turns. *)
Fixpoint chunk_loop (fuel : nat) (tokens : list token)
    (max_tokens overlap_tokens start_idx : Z) (chunks : list string)
    : option (list string) :=
  let n := Z.of_nat (List.length tokens) in
  if (start_idx <? n)%Z then
    match fuel with
    | O => None
    | S fuel' =>
        let end_idx := (start_idx + max_tokens)%Z in
        let end_idx := if (end_idx <? n)%Z then (end_idx + overlap_tokens)%Z else end_idx in
        let token_chunk := py_slice tokens start_idx end_idx in
        let chunk_text := clean_text (decode token_chunk) in
        let chunks := if truthy chunk_text then (chunks ++ [chunk_text])%list else chunks in
        chunk_loop fuel' tokens max_tokens overlap_tokens (start_idx + max_tokens)%Z chunks
    end
  else Some chunks.

(** [chunk_text_by_tokens].  One turn per token is enough whenever
    [max_tokens] is positive; with [max_tokens <= 0] the loop never ends
    (see [chunk_loop_diverges]) and the result is [None]. *)
Definition chunk_text_by_tokens (text : string) (max_tokens overlap_tokens : Z)
    : option (list string) :=
  if negb (truthy (strip text)) then Some []
  else
    let tokens := encode text in
    chunk_loop (List.length tokens) tokens max_tokens overlap_tokens 0 [].

(** The [for sentence in sentences] loop of [chunk_text_by_sentences]. *)
Fixpoint sentence_loop (sentences : list string) (max_tokens : Z)
    (current_chunk : string) (chunks : list string) : option (list string) :=
  match sentences with
  | [] =>
      Some (if truthy (strip current_chunk)
            then (chunks ++ [clean_text current_chunk])%list else chunks)
  | sentence :: rest =>
      let test_chunk :=
        if truthy current_chunk then current_chunk ++ " " ++ sentence else sentence in
      let token_count := ntokens test_chunk in
      if (token_count <=? max_tokens)%Z then
        sentence_loop rest max_tokens test_chunk chunks
      else
        let chunks :=
          if truthy (strip current_chunk)
          then (chunks ++ [clean_text current_chunk])%list else chunks in
        if (ntokens sentence >? max_tokens)%Z then
          match chunk_text_by_tokens sentence max_tokens 0 with
          | None => None
          | Some sub_chunks =>
              sentence_loop rest max_tokens current_chunk (chunks ++ sub_chunks)%list
          end
        else sentence_loop rest max_tokens sentence chunks
  end.

Definition chunk_text_by_sentences (text : string) (max_tokens : Z)
    : option (list string) :=
  if negb (truthy (strip text)) then Some []
  else sentence_loop (re_split_sentences text) max_tokens EmptyString [].

End Chunking.

Record Metadata : Type := {
  chunk_index : nat;
  total_chunks : nat;
  method : string
}.

Record Chunk : Type := {
  chunk_id : string;
  content : string;
  document_id : string;
  title : string;
  chapter : string;
  section : string;
  source_path : string;
  metadata : option Metadata
}.

Section Identity.
(** [str(uuid5(NAMESPACE_URL, name))]: a fixed function of [name] (the
    SHA-1 digest of the namespace and the name). *)
Variable uuid5_url : string -> string.
(** The builtin [hash] on [str] of the running interpreter.  It is keyed
    by a secret that the interpreter draws when it starts (unless
    PYTHONHASHSEED fixes it), so each process has its own [hash]. *)
Variable hash : string -> Z.

(** The name handed to [uuid5]:
    [f"{source_path}_{len(content)}_{hash(content)}"]. *)
Definition chunk_name (content source_path : string) : string :=
  source_path ++ "_" ++ str_of_nat (String.length content) ++ "_"
    ++ str_of_Z (hash content).

Definition create_chunk_dict (content source_path document_id
    title chapter section : string) (metadata : option Metadata) : Chunk :=
  {| chunk_id := uuid5_url (chunk_name content source_path);
     content := content;
     document_id := document_id;
     title := title;
     chapter := chapter;
     section := section;
     source_path := source_path;
     metadata := metadata |}.

(** [for i, chunk_content in enumerate(chunks)] with the fixed [total] and
    [chunk_method]. *)
Fixpoint chunk_dicts (chunks : list string) (i total : nat)
    (source_path document_id title chapter section chunk_method : string)
    : list Chunk :=
  match chunks with
  | [] => []
  | chunk_content :: rest =>
      create_chunk_dict chunk_content source_path document_id title chapter
        section
        (Some {| chunk_index := i; total_chunks := total; method := chunk_method |})
      :: chunk_dicts rest (S i) total source_path document_id title chapter
           section chunk_method
  end.

Definition chunk_document {T : Tokenizer}
    (content source_path document_id title chapter section chunk_method : string)
    (max_tokens overlap_tokens : Z) : option (list Chunk) :=
  let chunks :=
    if (chunk_method =? "sentences")%string
    then chunk_text_by_sentences content max_tokens
    else chunk_text_by_tokens content max_tokens overlap_tokens in
  match chunks with
  | None => None
  | Some chunks =>
      Some (chunk_dicts chunks 0 (List.length chunks) source_path document_id
              title chapter section chunk_method)
  end.

End Identity.

End ChunkingUtils.

(** ** services/retrieval_service.py *)

Module RetrievalService.

(** A result dictionary of [search_chunks]; [composite_score] is the key
    that [retrieve_and_rank] adds. *)
Record RetrievalResult : Type := {
  chunk_id : string;
  content : string;
  document_id : string;
  title : string;
  source_path : string;
  chapter : string;
  section : string;
  similarity_score : Q;
  composite_score : option Q
}.

(** [chunk['composite_score'] = chunk['similarity_score']] *)
Definition set_composite_score (chunk : RetrievalResult) : RetrievalResult :=
  {| chunk_id := chunk_id chunk;
     content := content chunk;
     document_id := document_id chunk;
     title := title chunk;
     source_path := source_path chunk;
     chapter := chapter chunk;
     section := section chunk;
     similarity_score := similarity_score chunk;
     composite_score := Some (similarity_score chunk) |}.

Section ListSort.
Context {A : Type}.

(** [list.sort(key=..., reverse=True)] computes every key once, orders the
    decorated list from the largest key to the smallest and keeps elements
    of equal key in their original order.  A key that raises ([None])
    aborts the sort. *)
Fixpoint decorate (key : A -> option Q) (l : list A) : option (list (Q * A)) :=
  match l with
  | [] => Some []
  | x :: rest =>
      match key x, decorate key rest with
      | Some k, Some rest' => Some ((k, x) :: rest')
      | _, _ => None
      end
  end.

Fixpoint insert_desc (x : Q * A) (l : list (Q * A)) : list (Q * A) :=
  match l with
  | [] => [x]
  | y :: rest =>
      if Qle_bool (fst y) (fst x) then x :: y :: rest
      else y :: insert_desc x rest
  end.

Fixpoint sort_desc (l : list (Q * A)) : list (Q * A) :=
  match l with
  | [] => []
  | x :: rest => insert_desc x (sort_desc rest)
  end.

Definition sort_by_key_reverse (key : A -> option Q) (l : list A) : option (list A) :=
  match decorate key l with
  | Some d => Some (map snd (sort_desc d))
  | None => None
  end.

End ListSort.

Section Retrieval.
(** [vector_service.search_chunks], the call into the vector store. *)
Variable search_chunks : string -> Z -> option string -> list RetrievalResult.

Definition retrieve_relevant_chunks (query : string) (top_k : Z)
    (selected_text : option string) : list RetrievalResult :=
  search_chunks query top_k selected_text.

Definition retrieve_and_rank (query : string) (top_k : Z)
    : option (list RetrievalResult) :=
  let chunks := retrieve_relevant_chunks query top_k None in
  let chunks := map set_composite_score chunks in
  sort_by_key_reverse composite_score chunks.

End Retrieval.

(** One part of the context string:
    [f"Source: {source_path} | Chapter: {chapter} | Section: {section}\n"]
    followed by [f"Content: {content}\n"]. *)
Definition context_part (chunk : RetrievalResult) : string :=
  ("Source: " ++ source_path chunk ++ " | Chapter: " ++ chapter chunk
     ++ " | Section: " ++ section chunk ++ String "010" EmptyString)
  ++ ("Content: " ++ content chunk ++ String "010" EmptyString).

Definition get_context_string (chunks : list RetrievalResult) : string :=
  PyStr.join (String "010" ("---" ++ String "010" EmptyString))
    (map context_part chunks).

End RetrievalService.

(** ** services/validation_service.py *)

Module ValidationService.
Import PyStr.

Definition known_absence_phrases : list string :=
  [ "not available in the book";
    "not found in the book";
    "not mentioned in the book";
    "no information in the book";
    "book does not contain";
    "not provided in the book";
    "not specified in the book" ].

Record Result : Type := {
  is_valid : bool;
  issues : list string;
  confidence : Q
}.

Definition generic_indicators : list string :=
  [ "generally.*";
    "in general.*";
    "typically.*";
    "usually.*";
    "most.*";
    "many.*";
    "external sources.*";
    "other sources.*";
    "from external knowledge.*" ].

(** [re.search(pattern, s, re.IGNORECASE)] for the patterns above, each a
    literal followed by [.*]: the tail matches the empty string, so the
    search succeeds exactly when the literal occurs in [s], whatever the
    case of the letters. *)
Definition pattern_literal (pattern : string) : string :=
  substring 0 (String.length pattern - 2) pattern.

Definition re_search_ignorecase (pattern s : string) : bool :=
  contains (lower (pattern_literal pattern)) (lower s).

(** One turn of [for indicator in generic_indicators]. *)
Definition check_indicator (response_lower : string) (validation_result : Result)
    (indicator : string) : Result :=
  if re_search_ignorecase indicator response_lower then
    {| is_valid := false;
       issues := (issues validation_result
                  ++ [("Response contains generic knowledge indicator: " ++ indicator)%string])%list;
       confidence := 3 # 10 |}
  else validation_result.

Definition validate_book_based_response (response : string)
    (context_chunks : list RetrievalService.RetrievalResult) : Result :=
  let validation_result := {| is_valid := true; issues := []; confidence := 1 |} in
  let response_lower := lower response in
  let has_absence_indicator := any_in known_absence_phrases response_lower in
  if has_absence_indicator then
    {| is_valid := is_valid validation_result;
       issues := issues validation_result;
       confidence := 9 # 10 |}
  else
    let validation_result :=
      fold_left (check_indicator response_lower) generic_indicators validation_result in
    match context_chunks with
    | [] => validation_result
    | _ :: _ =>
        let context_text := join " " (map RetrievalService.content context_chunks) in
        if ((len (strip context_text) <? 50) && (len (strip response) >? 100))%Z then
          {| is_valid := false;
             issues := (issues validation_result
                        ++ ["Detailed response provided with minimal context"])%list;
             confidence := 2 # 10 |}
        else validation_result
    end.

Definition validate_selected_text_response (response selected_text : string) : Result :=
  let validation_result := {| is_valid := true; issues := []; confidence := 1 |} in
  let response_lower := lower response in
  let has_absence_indicator := any_in known_absence_phrases response_lower in
  if has_absence_indicator then
    {| is_valid := is_valid validation_result;
       issues := issues validation_result;
       confidence := 9 # 10 |}
  else
    let validation_result :=
      if (negb (truthy (strip selected_text)) && (len (strip response) >? 50)%Z) then
        {| is_valid := false;
           issues := (issues validation_result
                      ++ ["Response provided without selected text context"])%list;
           confidence := 1 # 10 |}
      else validation_result in
    if (truthy selected_text && (len (strip response) >? 20)%Z) then
      let selected_lower := lower selected_text in
      let response_words := py_set (split response_lower) in
      let selected_words := py_set (split selected_lower) in
      match selected_words with
      | [] => validation_result
      | _ :: _ =>
          let overlap := List.length (intersection response_words selected_words) in
          let total_response_words := List.length response_words in
          if ((0 <? total_response_words)%nat
              && Qltb (py_div overlap total_response_words) (1 # 10)) then
            {| is_valid := is_valid validation_result;
               issues := (issues validation_result
                          ++ ["Low semantic overlap between response and selected text"])%list;
               confidence := 5 # 10 |}
          else validation_result
      end
    else validation_result.

End ValidationService.

(** ** utils/validation.py *)

Module Validation.
Import PyStr.

(** The three counters returned on the ordinary path. *)
Record Breakdown : Type := {
  valid_sentences_count : nat;
  invalid_sentences_count : nat;
  total_sentences : nat
}.

Record Verdict : Type := {
  is_valid : bool;
  errors : list string;
  confidence : Q;
  validation_note : option string;
  breakdown : option Breakdown
}.

Definition external_indicators : list string :=
  [ "i don't know";
    "not in the provided text";
    "not found in the selected text";
    "not mentioned in the text";
    "not specified in the text" ].

(** [[word for word in s.split() if len(word) > 3]] as a set. *)
Definition meaningful_words (s : string) : list string :=
  py_set (filter (fun word => (len word >? 3)%Z) (split s)).

(** [[s.strip() for s in re.split(r'[.!?]+', response) if s.strip()]] *)
Definition response_sentences (response : string) : list string :=
  map strip (filter (fun s => truthy (strip s)) (re_split_terminators response)).

(** One turn of [for sentence in response_sentences]; the state is the
    pair [(invalid_sentences, valid_sentences)]. *)
Definition classify_sentence (selected_text_lower : string)
    (acc : list string * list string) (sentence : string)
    : list string * list string :=
  let (invalid_sentences, valid_sentences) := acc in
  let sentence_lower := strip (lower sentence) in
  if truthy sentence_lower then
    let sentence_words := meaningful_words sentence_lower in
    let selected_words := meaningful_words selected_text_lower in
    match sentence_words with
    | [] => acc
    | _ :: _ =>
        let common_words := intersection sentence_words selected_words in
        let overlap_ratio := py_div (List.length common_words) (List.length sentence_words) in
        if Qltb overlap_ratio (3 # 10)
        then ((invalid_sentences ++ [sentence])%list, valid_sentences)
        else (invalid_sentences, (valid_sentences ++ [sentence])%list)
    end
  else acc.

Definition outside_context_error (invalid total : nat) : string :=
  "Response contains information not found in selected text. "
  ++ str_of_nat invalid ++ "/" ++ str_of_nat total
  ++ " sentences appear to be outside the selected text context.".

Definition validate_selected_text_response (response selected_text : string) : Verdict :=
  if negb (truthy response) then
    {| is_valid := false; errors := ["Response cannot be empty"]; confidence := 0;
       validation_note := None; breakdown := None |}
  else if negb (truthy selected_text) then
    {| is_valid := false; errors := ["Selected text cannot be empty for validation"];
       confidence := 0; validation_note := None; breakdown := None |}
  else
    let response_lower := lower response in
    let selected_text_lower := lower selected_text in
    let response_sentences := response_sentences response in
    let (invalid_sentences, valid_sentences) :=
      fold_left (classify_sentence selected_text_lower) response_sentences ([], []) in
    let total_sentences := List.length response_sentences in
    let errors :=
      if ((0 <? total_sentences)%nat
          && Qltb (1 # 2) (py_div (List.length invalid_sentences) total_sentences))
      then [outside_context_error (List.length invalid_sentences) total_sentences]
      else [] in
    if any_in external_indicators response_lower then
      {| is_valid := true; errors := []; confidence := 1;
         validation_note :=
           Some "Response properly indicates information not available in selected text";
         breakdown := None |}
    else
      let confidence :=
        if (0 <? total_sentences)%nat
        then py_min 1 (py_div (List.length valid_sentences) total_sentences)
        else 0 in
      {| is_valid := match errors with [] => true | _ :: _ => false end;
         errors := errors;
         confidence := confidence;
         validation_note := None;
         breakdown :=
           Some {| valid_sentences_count := List.length valid_sentences;
                   invalid_sentences_count := List.length invalid_sentences;
                   total_sentences := total_sentences |} |}.

End Validation.

(** ** utils/validation.py: sanitising and request checks *)

Module InputValidation.
Import PyStr.

(** [re.sub] of a character class by the empty string. *)
Fixpoint remove_chars (drop : ascii -> bool) (s : string) : string :=
  match s with
  | EmptyString => EmptyString
  | String c r =>
      if drop c then remove_chars drop r else String c (remove_chars drop r)
  end.

(** The character [\x00]. *)
Definition is_null (c : ascii) : bool := (nat_of_ascii c =? 0)%nat.

(** The class [[\x01-\x08\x0B\x0C\x0E-\x1F\x7F]]. *)
Definition is_control (c : ascii) : bool :=
  let n := nat_of_ascii c in
  (((1 <=? n) && (n <=? 8)) || (n =? 11) || (n =? 12)
   || ((14 <=? n) && (n <=? 31)) || (n =? 127))%nat.

Definition sanitize_input (text : string) : string :=
  if negb (truthy text) then text
  else
    let text := remove_chars is_null text in
    let text := remove_chars is_control text in
    strip text.

(** The outcome of a pydantic validator: the value it returns, or the
    message of the [ValueError] it raises. *)
Inductive validated (A : Type) : Type :=
| Accepted (value : A)
| ValueError (message : string).

Arguments Accepted {A} value.
Arguments ValueError {A} message.

(** [ChatRequestValidator.validate_message] *)
Definition validate_message (v : string) : validated string :=
  if negb (truthy v) || (len (strip v) =? 0)%Z then
    ValueError "Message cannot be empty"
  else if (len v >? 10000)%Z then
    ValueError "Message too long (max 10000 characters)"
  else Accepted (sanitize_input v).

(** [SearchRequestValidator.validate_query] *)
Definition validate_query (v : string) : validated string :=
  if negb (truthy v) || (len (strip v) =? 0)%Z then
    ValueError "Query cannot be empty"
  else if (len v >? 1000)%Z then
    ValueError "Query too long (max 1000 characters)"
  else Accepted (sanitize_input v).

(** [validate_selected_text] of both request validators. *)
Definition validate_selected_text (v : option string) : validated (option string) :=
  match v with
  | Some text =>
      if (len text >? 50000)%Z then
        ValueError "Selected text too long (max 50000 characters)"
      else if truthy text then Accepted (Some (sanitize_input text))
      else Accepted v
  | None => Accepted v
  end.

(** [SearchRequestValidator.validate_top_k] *)
Definition validate_top_k (v : option Z) : validated (option Z) :=
  match v with
  | Some k =>
      if ((k <? 1) || (k >? 20))%Z then ValueError "top_k must be between 1 and 20"
      else Accepted v
  | None => Accepted v
  end.

(** A character of the class [[0-9a-f]] under [re.IGNORECASE]. *)
Definition is_hex (c : ascii) : bool :=
  let n := nat_of_ascii c in
  (((48 <=? n) && (n <=? 57)) || ((97 <=? n) && (n <=? 102))
   || ((65 <=? n) && (n <=? 70)))%nat.

(** [[0-9a-f]{n}] at the head of [s]: what follows the match. *)
Fixpoint hex_run (n : nat) (s : string) : option string :=
  match n with
  | O => Some s
  | S n' =>
      match s with
      | String c r => if is_hex c then hex_run n' r else None
      | EmptyString => None
      end
  end.

(** A hyphen at the head of [s]: what follows it. *)
Definition hyphen (s : string) : option string :=
  match s with
  | String c r => if (c =? "-")%char then Some r else None
  | EmptyString => None
  end.

Definition and_then (x : option string) (f : string -> option string) : option string :=
  match x with
  | Some s => f s
  | None => None
  end.

(** The pattern up to its [$]: what follows the 36 matched characters. *)
Definition uuid_body (s : string) : option string :=
  and_then (and_then (and_then (and_then (and_then (and_then (and_then (and_then
    (hex_run 8 s) hyphen) (hex_run 4)) hyphen) (hex_run 4)) hyphen) (hex_run 4))
    hyphen) (hex_run 12).

(** [$] without [re.MULTILINE]: the end of the string, or the newline
    that ends the string. *)
Definition at_end (rest : string) : bool :=
  match rest with
  | EmptyString => true
  | String c EmptyString => (c =? "010")%char
  | _ => false
  end.

(** [re.match(r'^[0-9a-f]{8}-[0-9a-f]{4}-[0-9a-f]{4}-[0-9a-f]{4}-[0-9a-f]{12}$',
    s, re.IGNORECASE)] succeeds. *)
Definition uuid_regex_match (s : string) : bool :=
  match uuid_body s with
  | Some rest => at_end rest
  | None => false
  end.


(** [ChatRequestValidator.validate_session_id] *)
Definition validate_session_id (v : option string) : validated (option string) :=
  match v with
  | Some id =>
      if negb (uuid_regex_match id) then ValueError "Invalid session ID format"
      else Accepted v
  | None => Accepted v
  end.

(** The dictionaries that [validate_document_content] and
    [validate_api_response] return; the latter has no
    [sanitized_content]. *)
Record Report : Type := {
  is_valid : bool;
  errors : list string;
  sanitized_content : option string
}.

(** [content.encode('utf-8')] raises for lone surrogates only, which an
    8-bit text does not hold: the third check adds no error. *)
Definition validate_document_content (content : string) : Report :=
  let errors :=
    if negb (truthy content) then ["Content cannot be empty"]
    else if (len content >? 1000000)%Z then ["Content too large (max 1MB)"]
    else [] in
  {| is_valid := (List.length errors =? 0)%nat;
     errors := errors;
     sanitized_content :=
       Some (if truthy content then sanitize_input content else content) |}.

Definition sensitive_keywords : list string :=
  ["password"; "secret"; "api_key"; "token"; "credential"].

(** [response] may be [None]. *)
Definition validate_api_response (response : option string) : Report :=
  let errors :=
    match response with
    | None => ["Response cannot be None"]
    | Some text =>
        if (len text >? 100000)%Z then ["Response too large (max 100KB)"] else []
    end in
  let errors :=
    match response with
    | Some text =>
        if truthy text && any_in sensitive_keywords (lower text)
        then (errors ++ ["Response may contain sensitive information"])%list
        else errors
    | None => errors
    end in
  {| is_valid := (List.length errors =? 0)%nat;
     errors := errors;
     sanitized_content := None |}.

End InputValidation.

(** ** api/chat.py: the checks on the generated answer *)

Module Chat.
Import PyStr.

Definition fallback_response : string :=
  "This information is not available in the book.".

(** The answer after the check of [validate_api_response]: an answer that
    fails the check is replaced by the fallback sentence. *)
Definition checked_response_text (response_text : string) : string :=
  let validation_result := InputValidation.validate_api_response (Some response_text) in
  if negb (InputValidation.is_valid validation_result) then fallback_response
  else response_text.

(** The second check, made only when the request carries a selected text:
    the verdict on the (possibly replaced) answer.  The endpoint logs the
    verdict and returns the answer either way. *)
Definition selected_text_validation (response_text : string)
    (selected_text : option string) : option Validation.Verdict :=
  match selected_text with
  | Some text =>
      if truthy text
      then Some (Validation.validate_selected_text_response
                   (checked_response_text response_text) text)
      else None
  | None => None
  end.

End Chat.

(** ** utils/cache.py *)

Module Cache.

Section LRU.
(** The cached values and the readings of [time.time()]. *)
Variable Value : Type.
Variable Time : Type.
(** [elapsed_below now timestamp ttl] is the test
    [now - timestamp < ttl]. *)
Variable elapsed_below : Time -> Time -> Z -> bool.

(** An entry [{'value': ..., 'timestamp': ...}]. *)
Definition Item : Type := (Value * Time)%type.

(** The [OrderedDict]: the keys in their order, oldest first, each key
    once. *)
Definition Entries : Type := list (string * Item).

Record LRUCache : Type := {
  max_size : Z;
  ttl : Z;
  cache : Entries
}.

Definition init (max_size ttl : Z) : LRUCache :=
  {| max_size := max_size; ttl := ttl; cache := [] |}.

Definition with_cache (c : LRUCache) (entries : Entries) : LRUCache :=
  {| max_size := max_size c; ttl := ttl c; cache := entries |}.

(** [d.get(key)] / [key in d] *)
Fixpoint lookup (key : string) (d : Entries) : option Item :=
  match d with
  | [] => None
  | (k, item) :: rest => if (k =? key)%string then Some item else lookup key rest
  end.

(** [del d[key]] for a key that [d] holds. *)
Fixpoint remove (key : string) (d : Entries) : Entries :=
  match d with
  | [] => []
  | (k, item) :: rest =>
      if (k =? key)%string then remove key rest else (k, item) :: remove key rest
  end.

(** [d[key] = item]: a key that [d] holds keeps its place, a new key goes
    to the end. *)
Fixpoint assign (key : string) (item : Item) (d : Entries) : Entries :=
  match d with
  | [] => [(key, item)]
  | (k, old) :: rest =>
      if (k =? key)%string then (k, item) :: rest
      else (k, old) :: assign key item rest
  end.

(** [d.move_to_end(key)]; [None] is the [KeyError] for a missing key. *)
Definition move_to_end (key : string) (d : Entries) : option Entries :=
  match lookup key d with
  | Some item => Some (remove key d ++ [(key, item)])%list
  | None => None
  end.

(** [d.popitem(last=False)]; [None] is the [KeyError] of an empty
    dictionary. *)
Definition popitem_first (d : Entries) : option Entries :=
  match d with
  | [] => None
  | _ :: rest => Some rest
  end.

(** [get], called when the clock reads [now]: the cache afterwards and the
    value returned; the outer [None] is an exception. *)
Definition get (c : LRUCache) (key : string) (now : Time)
    : option (LRUCache * option Value) :=
  match lookup key (cache c) with
  | Some item =>
      if elapsed_below now (snd item) (ttl c) then
        match move_to_end key (cache c) with
        | Some entries => Some (with_cache c entries, Some (fst item))
        | None => None
        end
      else Some (with_cache c (remove key (cache c)), None)
  | None => Some (c, None)
  end.

(** [put], called when the clock reads [now]; [None] is an exception. *)
Definition put (c : LRUCache) (key : string) (value : Value) (now : Time)
    : option LRUCache :=
  match (if (Z.of_nat (List.length (cache c)) >=? max_size c)%Z
         then popitem_first (cache c) else Some (cache c)) with
  | Some entries =>
      match move_to_end key (assign key (value, now) entries) with
      | Some entries' => Some (with_cache c entries')
      | None => None
      end
  | None => None
  end.

Definition delete (c : LRUCache) (key : string) : LRUCache :=
  match lookup key (cache c) with
  | Some _ => with_cache c (remove key (cache c))
  | None => c
  end.

Definition clear (c : LRUCache) : LRUCache := with_cache c [].

Definition size (c : LRUCache) : Z := Z.of_nat (List.length (cache c)).

End LRU.

Arguments max_size {Value Time} _.
Arguments ttl {Value Time} _.
Arguments cache {Value Time} _.
Arguments init {Value Time} _ _.
Arguments with_cache {Value Time} _ _.
Arguments lookup {Value Time} _ _.
Arguments remove {Value Time} _ _.
Arguments assign {Value Time} _ _ _.
Arguments move_to_end {Value Time} _ _.
Arguments popitem_first {Value Time} _.
Arguments get {Value Time} _ _ _ _.
Arguments put {Value Time} _ _ _ _.
Arguments delete {Value Time} _ _.
Arguments clear {Value Time} _.
Arguments size {Value Time} _.

End Cache.

(** ** middleware/rate_limiter.py *)

Module RateLimiterModel.

Section Limiter.
(** The readings of [time.time()]. *)
Variable Time : Type.
(** [before_window timestamp now window_size] is the test
    [timestamp < now - window_size]. *)
Variable before_window : Time -> Time -> Z -> bool.

(** [requests] is a [defaultdict(deque)]: every identifier has a queue,
    empty until a request is recorded. *)
Record RateLimiter : Type := {
  requests : string -> list Time;
  window_size : Z;
  max_requests : Z
}.

Definition init (window_size max_requests : Z) : RateLimiter :=
  {| requests := fun _ => [];
     window_size := window_size;
     max_requests := max_requests |}.

(** The [while] loop: [popleft] as long as the oldest timestamp lies
    before the window. *)
Fixpoint drop_outdated (now : Time) (window_size : Z) (q : list Time) : list Time :=
  match q with
  | [] => []
  | t :: rest =>
      if before_window t now window_size then drop_outdated now window_size rest
      else q
  end.

Definition set_queue (rl : RateLimiter) (identifier : string) (q : list Time)
    : RateLimiter :=
  {| requests := fun id => if (id =? identifier)%string then q else requests rl id;
     window_size := window_size rl;
     max_requests := max_requests rl |}.

(** [is_allowed], called when the clock reads [now]: the limiter afterwards
    and the answer. *)
Definition is_allowed (rl : RateLimiter) (identifier : string) (now : Time)
    : RateLimiter * bool :=
  let q := drop_outdated now (window_size rl) (requests rl identifier) in
  if (Z.of_nat (List.length q) <? max_requests rl)%Z
  then (set_queue rl identifier (q ++ [now])%list, true)
  else (set_queue rl identifier q, false).

End Limiter.

Arguments requests {Time} _ _.
Arguments window_size {Time} _.
Arguments max_requests {Time} _.
Arguments init {Time} _ _.
Arguments drop_outdated {Time} _ _ _ _.
Arguments set_queue {Time} _ _ _.
Arguments is_allowed {Time} _ _ _ _.

End RateLimiterModel.

(** ** utils/response_formatter.py *)

Module ResponseFormatter.
Import PyStr.

(** A cited chunk: a dictionary in which each of the four keys may be
    missing. *)
Record CitedChunk : Type := {
  title : option string;
  source_path : option string;
  chapter : option string;
  section : option string
}.

(** [d.get(key, default)] *)
Definition get_or (value : option string) (default : string) : string :=
  match value with
  | Some v => v
  | None => default
  end.

(** [if d.get(key):] *)
Definition present (value : option string) : bool :=
  match value with
  | Some v => truthy v
  | None => false
  end.

Definition source_info (i : nat) (chunk : CitedChunk) : string :=
  let source_info :=
    str_of_nat i ++ ". " ++ get_or (title chunk) "Untitled" ++ " - "
    ++ get_or (source_path chunk) "Unknown path" in
  let source_info :=
    if present (chapter chunk)
    then source_info ++ " (Chapter: " ++ get_or (chapter chunk) EmptyString ++ ")"
    else source_info in
  if present (section chunk)
  then source_info ++ " (Section: " ++ get_or (section chunk) EmptyString ++ ")"
  else source_info.

(** [for i, chunk in enumerate(cited_chunks, 1)] *)
Fixpoint source_lines (cited_chunks : list CitedChunk) (i : nat) (sources_text : string)
    : string :=
  match cited_chunks with
  | [] => sources_text
  | chunk :: rest =>
      source_lines rest (S i)
        (sources_text ++ (source_info i chunk ++ String "010" EmptyString))
  end.

Definition format_sources (cited_chunks : list CitedChunk) : string :=
  match cited_chunks with
  | [] => EmptyString
  | _ :: _ =>
      source_lines cited_chunks 1
        (String "010" (String "010" ("Sources:" ++ String "010" EmptyString)))
  end.

Definition enhance_response_with_sources (response : string)
    (cited_chunks : list CitedChunk) : string :=
  match cited_chunks with
  | [] => response
  | _ :: _ =>
      if contains "not available in the book" (lower response) then response
      else response ++ format_sources cited_chunks
  end.

Definition validate_sources_in_response (response : string)
    (cited_chunks : list CitedChunk) : bool :=
  if contains "not available in the book" (lower response) then true
  else (len (strip response) >? len "not available in the book")%Z.

End ResponseFormatter.

(** * Vocabulary of the properties

    The notions in which the properties below are worded, and the example
    inputs on which they are run. *)

(** ** Example encoders

    Two small instances of the [Tokenizer] interface, used to run the
    chunkers on concrete texts. *)

(** One token per character. *)
Definition char_tokenizer : ChunkingUtils.Tokenizer := {|
  ChunkingUtils.token := ascii;
  ChunkingUtils.encode := list_ascii_of_string;
  ChunkingUtils.decode := string_of_list_ascii
|}.




(** A keyed string hash: the character codes folded from the secret of the
    process. *)
Definition keyed_hash (secret : Z) (s : string) : Z :=
  fold_left (fun h c => (31 * h + Z.of_nat (nat_of_ascii c))%Z)
            (list_ascii_of_string s) secret.

(** [n] letters [x]. *)
Definition filler (n : nat) : string := string_of_list_ascii (repeat "x"%char n).

(** A retrieved chunk with the given identifier and score. *)
Definition scored_chunk (id : string) (score : Q) : RetrievalService.RetrievalResult :=
  {| RetrievalService.chunk_id := id;
     RetrievalService.content := EmptyString;
     RetrievalService.document_id := "d0";
     RetrievalService.title := EmptyString;
     RetrievalService.source_path := "docs/intro.md";
     RetrievalService.chapter := EmptyString;
     RetrievalService.section := EmptyString;
     RetrievalService.similarity_score := score;
     RetrievalService.composite_score := None |}.

(** A retrieved chunk with the given content. *)
Definition context_chunk (text : string) : RetrievalService.RetrievalResult :=
  {| RetrievalService.chunk_id := "c0";
     RetrievalService.content := text;
     RetrievalService.document_id := "d0";
     RetrievalService.title := EmptyString;
     RetrievalService.source_path := "docs/intro.md";
     RetrievalService.chapter := EmptyString;
     RetrievalService.section := EmptyString;
     RetrievalService.similarity_score := 1 # 2;
     RetrievalService.composite_score := None |}.

(** ** Chunking *)

Section ChunkingVocabulary.
Import PyStr ChunkingUtils.
Context {T : Tokenizer}.

(** The windows as the specification words them: window [k] starts at
    offset [k * max_tokens]; it is [max_tokens] wide, and [overlap_tokens]
    wider exactly when tokens remain beyond offset [(k+1) * max_tokens]. *)
Definition window_width (n max_tokens overlap_tokens : Z) (k : nat) : Z :=
  if ((Z.of_nat k + 1) * max_tokens <? n)%Z
  then (max_tokens + overlap_tokens)%Z else max_tokens.

Definition token_window (tokens : list token) (max_tokens overlap_tokens : Z)
    (k : nat) : list token :=
  firstn (Z.to_nat (window_width (Z.of_nat (List.length tokens)) max_tokens overlap_tokens k))
         (skipn (Z.to_nat (Z.of_nat k * max_tokens)) tokens).

(** Number of offsets [k * max_tokens] below [n]. *)
Definition window_count (n max_tokens : Z) : nat :=
  Z.to_nat ((n + max_tokens - 1) / max_tokens).

(** Decoding, normalising and dropping of the windows that come out
    empty. *)
Definition emit_windows (windows : list (list token)) : list string :=
  filter truthy (map (fun w => clean_text (decode w)) windows).

(** A chunk that the token-windowing fallback produced from one sentence
    of [text] that alone exceeds [max_tokens]. *)
Definition from_fallback (text : string) (max_tokens : Z) (c : string) : Prop :=
  exists sentence sub_chunks,
    In sentence (re_split_sentences text)
    /\ (max_tokens < ntokens sentence)%Z
    /\ chunk_text_by_tokens sentence max_tokens 0 = Some sub_chunks
    /\ In c sub_chunks.

(** A chunk flushed from the accumulator: the normalised form of a text
    that was measured at [max_tokens] tokens or fewer. *)
Definition from_accumulator (max_tokens : Z) (c : string) : Prop :=
  exists raw, c = clean_text raw /\ (ntokens raw <= max_tokens)%Z.

Definition accumulator_ok (max_tokens : Z) (current_chunk : string) : Prop :=
  current_chunk = EmptyString \/ (ntokens current_chunk <= max_tokens)%Z.

End ChunkingVocabulary.


(** ** Ranking *)

Section RankingVocabulary.
Import RetrievalService.

(** Descending order of the keys. *)
Definition key_ge {A : Type} (a b : Q * A) : Prop := fst b <= fst a.

(** [a] may stand before [b] in a list ordered by [composite_score],
    largest first. *)
Definition ranked_before (a b : RetrievalResult) : Prop :=
  match composite_score a, composite_score b with
  | Some qa, Some qb => qb <= qa
  | _, _ => False
  end.

Definition scored (chunk : RetrievalResult) : Q * RetrievalResult :=
  (similarity_score chunk, set_composite_score chunk).

(** Every decorated pair carries the similarity score of its chunk as key
    and as composite score. *)
Definition well_scored (z : Q * RetrievalResult) : Prop :=
  similarity_score (snd z) = fst z /\ composite_score (snd z) = Some (fst z).

End RankingVocabulary.

(** ** Validation *)

Section ValidationVocabulary.
Import PyStr.

(** A verdict of the service is consistent when it is valid exactly when
    no issue is recorded. *)
Definition consistent (r : ValidationService.Result) : Prop :=
  ValidationService.is_valid r = true <-> ValidationService.issues r = [].

(** The set of the words of [s] that are longer than 3 characters, letter
    case ignored. *)
Definition long_words (s : string) : list string :=
  nodup string_dec (filter (fun w => (3 <? String.length w)%nat) (split (lower s))).

(** Number of long words of the sentence that are long words of the
    selected text as well. *)
Definition overlap (selected_text sentence : string) : nat :=
  List.length (filter (fun w => existsb (String.eqb w) (long_words selected_text))
                      (long_words sentence)).

(** Overlap ratio below 0.3: [overlap / words < 3 / 10]. *)
Definition unsupported (selected_text sentence : string) : bool :=
  let words := List.length (long_words sentence) in
  (0 <? words)%nat && (10 * overlap selected_text sentence <? 3 * words)%nat.

(** Overlap ratio of 0.3 or more. *)
Definition supported (selected_text sentence : string) : bool :=
  let words := List.length (long_words sentence) in
  (0 <? words)%nat && (3 * words <=? 10 * overlap selected_text sentence)%nat.

End ValidationVocabulary.

(** The claim in its original wording, with the lengths of the combined
    supporting text and of the answer as they are. *)
Definition sparse_context_claim : Prop :=
  forall (response : string) (context_chunks : list RetrievalService.RetrievalResult),
    PyStr.any_in ValidationService.known_absence_phrases (PyStr.lower response) = false ->
    (PyStr.len (PyStr.join " " (map RetrievalService.content context_chunks)) < 50)%Z ->
    (100 < PyStr.len response)%Z ->
    ValidationService.is_valid
      (ValidationService.validate_book_based_response response context_chunks) = false
    /\ ValidationService.confidence
         (ValidationService.validate_book_based_response response context_chunks)
       = 2 # 10.

(** The same for lists that hold at least one chunk. *)
Definition sparse_context_claim_nonempty : Prop :=
  forall (response : string) (context_chunks : list RetrievalService.RetrievalResult),
    context_chunks <> [] ->
    PyStr.any_in ValidationService.known_absence_phrases (PyStr.lower response) = false ->
    (PyStr.len (PyStr.join " " (map RetrievalService.content context_chunks)) < 50)%Z ->
    (100 < PyStr.len response)%Z ->
    ValidationService.is_valid
      (ValidationService.validate_book_based_response response context_chunks) = false
    /\ ValidationService.confidence
         (ValidationService.validate_book_based_response response context_chunks)
       = 2 # 10.


(** ** Whitespace *)

Section WhitespaceVocabulary.
Import PyStr.

(** Every whitespace character of [s] is a space, no two spaces follow
    each other, and [s] does not start with a space when [after_space]
    is set. *)
Fixpoint single_spaced (s : string) (after_space : bool) : bool :=
  match s with
  | EmptyString => true
  | String c r =>
      if isspace c
      then (c =? " ")%char && negb after_space && single_spaced r true
      else single_spaced r false
  end.

(** [s] holds a character that is not whitespace. *)
Fixpoint has_nonspace (s : string) : bool :=
  match s with
  | EmptyString => false
  | String c r => negb (isspace c) || has_nonspace r
  end.

(** A text in the form that [clean_text] produces: words separated by
    single spaces, no whitespace at either end. *)
Definition tidy (s : string) : Prop :=
  single_spaced s false = true /\ lstrip s = s /\ rstrip s = s.

End WhitespaceVocabulary.

(** ** Characters *)

Section CharacterVocabulary.
Import PyStr InputValidation.

(** [s] holds a character of the class [p]. *)
Fixpoint has_char (p : ascii -> bool) (s : string) : bool :=
  match s with
  | EmptyString => false
  | String c r => p c || has_char p r
  end.

(** A character that [sanitize_input] keeps and [strip] does not count as
    whitespace. *)
Definition visible (c : ascii) : bool :=
  negb (isspace c) && negb (is_null c) && negb (is_control c).



End CharacterVocabulary.

(** ** Verdicts of the validation service *)

Section ServiceVocabulary.
Import PyStr.

(** The literals of the generic-knowledge patterns. *)
Definition generic_literals : list string :=
  [ "generally"; "in general"; "typically"; "usually"; "most"; "many";
    "external sources"; "other sources"; "from external knowledge" ].

(** The answer holds, letter case ignored, one of the literals. *)
Definition sounds_generic (response : string) : bool :=
  existsb (fun literal => contains literal (lower response)) generic_literals.

(** The answer holds one of the "not available" phrases. *)
Definition admits_absence (response : string) : bool :=
  any_in ValidationService.known_absence_phrases (lower response).

(** A list of at least one chunk whose joined contents, stripped, have
    fewer than 50 characters, under an answer that, stripped, has more than
    100. *)
Definition sparse_context (response : string)
    (context_chunks : list RetrievalService.RetrievalResult) : bool :=
  match context_chunks with
  | [] => false
  | _ :: _ =>
      ((len (strip (join " " (map RetrievalService.content context_chunks))) <? 50)
       && (100 <? len (strip response)))%Z
  end.

End ServiceVocabulary.

(** ** Cache and rate limiter *)

Section CacheVocabulary.
Variable Value : Type.
Variable Time : Type.

(** The calls that a client of the cache can make. *)
Inductive cache_call : Type :=
| CallGet (key : string) (now : Time)
| CallPut (key : string) (value : Value) (now : Time)
| CallDelete (key : string)
| CallClear.

(** The cache after a series of calls; [None] when one of them raises. *)
Fixpoint run_cache (elapsed_below : Time -> Time -> Z -> bool)
    (calls : list cache_call) (c : Cache.LRUCache Value Time)
    : option (Cache.LRUCache Value Time) :=
  match calls with
  | [] => Some c
  | call :: rest =>
      match call with
      | CallGet key now =>
          match Cache.get elapsed_below c key now with
          | Some (c', _) => run_cache elapsed_below rest c'
          | None => None
          end
      | CallPut key value now =>
          match Cache.put c key value now with
          | Some c' => run_cache elapsed_below rest c'
          | None => None
          end
      | CallDelete key => run_cache elapsed_below rest (Cache.delete c key)
      | CallClear => run_cache elapsed_below rest (Cache.clear c)
      end
  end.

(** The keys of the cache in their order, oldest first. *)
Definition cache_keys (c : Cache.LRUCache Value Time) : list string :=
  map fst (Cache.cache c).

(** The limiter after a series of calls of [is_allowed]. *)
Fixpoint run_limiter (before_window : Time -> Time -> Z -> bool)
    (calls : list (string * Time)) (rl : RateLimiterModel.RateLimiter Time)
    : RateLimiterModel.RateLimiter Time :=
  match calls with
  | [] => rl
  | (identifier, now) :: rest =>
      run_limiter before_window rest
        (fst (RateLimiterModel.is_allowed before_window rl identifier now))
  end.

(** The times of the allowed calls of one identifier in a series of calls,
    in their order. *)
Fixpoint allowed_times (before_window : Time -> Time -> Z -> bool)
    (identifier : string) (calls : list (string * Time))
    (rl : RateLimiterModel.RateLimiter Time) : list Time :=
  match calls with
  | [] => []
  | (id, now) :: rest =>
      let (rl', ok) := RateLimiterModel.is_allowed before_window rl id now in
      if ok && (id =? identifier)%string
      then now :: allowed_times before_window identifier rest rl'
      else allowed_times before_window identifier rest rl'
  end.

End CacheVocabulary.

Arguments CallGet {Value Time} _ _.
Arguments CallPut {Value Time} _ _ _.
Arguments CallDelete {Value Time} _.
Arguments CallClear {Value Time}.
Arguments run_cache {Value Time} _ _ _.
Arguments cache_keys {Value Time} _.
Arguments run_limiter {Time} _ _ _.
Arguments allowed_times {Time} _ _ _ _.

(** Clock readings as rationals: the two tests on them. *)
Definition q_elapsed_below (now timestamp : Q) (ttl : Z) : bool :=
  PyStr.Qltb (now - timestamp) (inject_Z ttl).

Definition q_before_window (timestamp now : Q) (window_size : Z) : bool :=
  PyStr.Qltb timestamp (now - inject_Z window_size).

(** ** Further notions *)

Section FurtherVocabulary.
Import PyStr.

(** The slice that one turn of the loop takes, for [start_idx] inside the
    list. *)
Definition loop_slice {A : Type} (l : list A) (max_tokens overlap_tokens start_idx : Z) : list A :=
  let n := Z.of_nat (List.length l) in
  let end_idx := (start_idx + max_tokens)%Z in
  py_slice l start_idx
    (if (end_idx <? n)%Z then (end_idx + overlap_tokens)%Z else end_idx).

(** A chunk fit for storage: not empty, and in tidy form. *)
Definition well_formed_chunk (c : string) : Prop := truthy c = true /\ tidy c.

(** The long words of the fallback sentence. *)
Definition fallback_words : list string := ["this"; "information"; "available"; "book"].

Definition other_than (key : string) (k : string) : bool := negb (k =? key)%string.

(** The calls come in the order of their times. *)
Definition in_time_order (calls : list (string * Q)) : Prop :=
  StronglySorted (fun a b => snd a <= snd b) calls.

End FurtherVocabulary.

Section CacheStateVocabulary.
Import Cache.
Variable Value : Type.
Variable Time : Type.

(** The entries that [put] starts from: all, or all but the oldest when
    the cache is full. *)
Definition room_made (c : LRUCache Value Time) : Entries Value Time :=
  if (Z.of_nat (List.length (cache c)) >=? max_size c)%Z then tl (cache c) else cache c.

(** The cache holds each key once and no more than [limit] entries. *)
Definition cache_ok (limit : Z) (c : LRUCache Value Time) : Prop :=
  max_size c = limit
  /\ (Z.of_nat (List.length (cache c)) <= limit)%Z
  /\ NoDup (cache_keys c).

End CacheStateVocabulary.

Arguments room_made {Value Time} _.
Arguments cache_ok {Value Time} _ _.

Section LimiterStateVocabulary.
Import RateLimiterModel.

(** What the queue of [identifier] is with respect to the allowed calls:
    their times, less a first part that lies before the window of any
    call made at [bound] or later. *)
Definition queue_tracks (bound : Q) (w : Z) (identifier : string)
    (rl : RateLimiter Q) (allowed : list Q) : Prop :=
  exists dropped,
    allowed = (dropped ++ requests rl identifier)%list
    /\ Forall (fun t => Qle_bool (bound - inject_Z w) t = false) dropped
    /\ StronglySorted Qle (requests rl identifier).

End LimiterStateVocabulary.

(** A full cache of two entries in which the newer key is put again. *)
Definition two_entries : Cache.LRUCache string Q :=
  {| Cache.max_size := 2;
     Cache.ttl := 60;
     Cache.cache := [("a", ("x", 1)); ("b", ("y", 2))] |}.

(** * Properties *)

(** ** Python strings *)

Section StringFacts.
Import PyStr ChunkingUtils.

Lemma length_lstrip_le (s : string) : (String.length (lstrip s) <= String.length s)%nat.
Proof.
  induction s as [|c r IH]; simpl; [lia|].
  destruct (isspace c); simpl; lia.
Qed.

Lemma length_rstrip_le (s : string) : (String.length (rstrip s) <= String.length s)%nat.
Proof.
  induction s as [|c r IH]; simpl; [lia|].
  destruct (rstrip r); [destruct (isspace c)|]; simpl in *; lia.
Qed.

Lemma length_collapse_ws_le (s : string) (in_ws : bool) :
  (String.length (collapse_ws s in_ws) <= String.length s)%nat.
Proof.
  revert in_ws. induction s as [|c r IH]; intro in_ws; simpl; [lia|].
  destruct (isspace c); [destruct in_ws|]; simpl;
    [specialize (IH true) | specialize (IH true) | specialize (IH false)]; lia.
Qed.

Lemma length_clean_text_le (s : string) :
  (String.length (clean_text s) <= String.length s)%nat.
Proof.
  unfold clean_text, strip.
  pose proof (length_rstrip_le (lstrip (collapse_ws s false))).
  pose proof (length_lstrip_le (collapse_ws s false)).
  pose proof (length_collapse_ws_le s false). lia.
Qed.

Lemma length_strip_le (s : string) : (len (strip s) <= len s)%Z.
Proof.
  unfold len, strip.
  pose proof (length_rstrip_le (lstrip s)). pose proof (length_lstrip_le s). lia.
Qed.

End StringFacts.

(** ** Token-mode chunking *)

Section PySliceFacts.
Import PyStr.
Context {A : Type}.

Lemma firstn_beyond (l : list A) (n m : nat) :
  (List.length l <= n)%nat -> (List.length l <= m)%nat -> firstn n l = firstn m l.
Proof.
  intros Hn Hm. rewrite !firstn_all2 by assumption. reflexivity.
Qed.

(** Inside the list a slice is the [stop - start] elements that follow the
    first [start] ones, as many of them as the list still has. *)
Lemma py_slice_inside (l : list A) (start stop : Z) :
  (0 <= start < Z.of_nat (List.length l))%Z -> (start <= stop)%Z ->
  py_slice l start stop
  = firstn (Z.to_nat (stop - start)) (skipn (Z.to_nat start) l).
Proof.
  intros Hs He. unfold py_slice, clamp_index.
  destruct (Z.ltb_spec start 0) as [Hneg|_]; [lia|].
  destruct (Z.ltb_spec stop 0) as [Hneg|_]; [lia|].
  rewrite (Z.min_l start) by lia.
  destruct (Z.le_gt_cases stop (Z.of_nat (List.length l))) as [Hin|Hout].
  - rewrite Z.min_l by lia. reflexivity.
  - rewrite Z.min_r by lia.
    apply firstn_beyond; rewrite length_skipn; lia.
Qed.

End PySliceFacts.

Section TokenWindows.
Import PyStr ChunkingUtils.
Context {T : Tokenizer}.

Lemma window_count_spec (n max_tokens : Z) (k : nat) :
  (0 < max_tokens)%Z -> (0 <= n)%Z ->
  (Z.of_nat k * max_tokens <? n)%Z = (k <? window_count n max_tokens)%nat.
Proof.
  intros Hmax Hn. unfold window_count.
  assert (Hq : (0 <= (n + max_tokens - 1) / max_tokens)%Z)
    by (apply Z.div_pos; lia).
  destruct (Z.ltb_spec (Z.of_nat k * max_tokens) n) as [Hlt|Hge];
    destruct (Nat.ltb_spec k (Z.to_nat ((n + max_tokens - 1) / max_tokens)))
      as [Hk|Hk]; try reflexivity; exfalso.
  - assert (Hle : ((n + max_tokens - 1) / max_tokens <= Z.of_nat k)%Z) by lia.
    assert (Hup : (Z.of_nat k + 1 <= (n + max_tokens - 1) / max_tokens)%Z).
    { apply Z.div_le_lower_bound; lia. }
    lia.
  - assert (Hlt : ((n + max_tokens - 1) / max_tokens < Z.of_nat k + 1)%Z).
    { apply Z.div_lt_upper_bound; lia. }
    lia.
Qed.

Lemma window_count_le (n max_tokens : Z) :
  (0 < max_tokens)%Z -> (0 <= n)%Z -> (window_count n max_tokens <= Z.to_nat n)%nat.
Proof.
  intros Hmax Hn.
  pose proof (window_count_spec n max_tokens (Z.to_nat n) Hmax Hn) as H.
  destruct (Z.ltb_spec (Z.of_nat (Z.to_nat n) * max_tokens) n) as [Hlt|_]; [nia|].
  symmetry in H. apply Nat.ltb_ge in H. exact H.
Qed.

(** One turn of the loop takes the window that the specification
    describes. *)
Lemma loop_slice_is_window (tokens : list token) (max_tokens overlap_tokens : Z)
    (k : nat) :
  (0 < max_tokens)%Z -> (0 <= overlap_tokens)%Z ->
  (Z.of_nat k * max_tokens < Z.of_nat (List.length tokens))%Z ->
  let n := Z.of_nat (List.length tokens) in
  let start_idx := (Z.of_nat k * max_tokens)%Z in
  let end_idx := (start_idx + max_tokens)%Z in
  py_slice tokens start_idx
    (if (end_idx <? n)%Z then (end_idx + overlap_tokens)%Z else end_idx)
  = token_window tokens max_tokens overlap_tokens k.
Proof.
  intros Hmax Hov Hlt n start_idx end_idx.
  unfold token_window, window_width. fold n.
  replace ((Z.of_nat k + 1) * max_tokens)%Z with end_idx
    by (unfold end_idx, start_idx; lia).
  rewrite py_slice_inside.
  - f_equal. f_equal. unfold end_idx. destruct (_ <? _)%Z; lia.
  - unfold start_idx. lia.
  - unfold end_idx. destruct (_ <? _)%Z; lia.
Qed.

Lemma chunk_loop_windows (tokens : list token) (max_tokens overlap_tokens : Z) :
  (0 < max_tokens)%Z -> (0 <= overlap_tokens)%Z ->
  let count := window_count (Z.of_nat (List.length tokens)) max_tokens in
  forall (fuel k : nat) (chunks : list string),
    (count - k <= fuel)%nat ->
    chunk_loop fuel tokens max_tokens overlap_tokens (Z.of_nat k * max_tokens) chunks
    = Some (chunks ++ emit_windows
              (map (token_window tokens max_tokens overlap_tokens)
                   (seq k (count - k))))%list.
Proof.
  intros Hmax Hov count fuel.
  induction fuel as [|fuel IH]; intros k chunks Hfuel.
  - simpl. rewrite window_count_spec by lia. fold count.
    destruct (Nat.ltb_spec k count) as [Hk|Hk]; [lia|].
    replace (count - k)%nat with 0%nat by lia. simpl. now rewrite app_nil_r.
  - simpl. rewrite window_count_spec by lia. fold count.
    destruct (Nat.ltb_spec k count) as [Hk|Hk].
    + assert (Hlt : (Z.of_nat k * max_tokens < Z.of_nat (List.length tokens))%Z).
      { apply Z.ltb_lt. rewrite window_count_spec by lia. now apply Nat.ltb_lt. }
      rewrite (loop_slice_is_window tokens max_tokens overlap_tokens k Hmax Hov Hlt).
      replace (Z.of_nat k * max_tokens + max_tokens)%Z
        with (Z.of_nat (S k) * max_tokens)%Z by lia.
      rewrite IH by lia.
      replace (count - k)%nat with (S (count - S k)) by lia.
      simpl. unfold emit_windows at 2. simpl.
      destruct (truthy (clean_text (decode (token_window tokens max_tokens overlap_tokens k)))).
      * rewrite <- app_assoc. reflexivity.
      * reflexivity.
    + replace (count - k)%nat with 0%nat by lia. simpl. now rewrite app_nil_r.
Qed.

(** With [max_tokens <= 0] the start offset never reaches the end of the
    token list: no amount of fuel ends the loop. *)
Lemma chunk_loop_diverges (tokens : list token) (max_tokens overlap_tokens : Z) :
  (max_tokens <= 0)%Z ->
  forall (fuel : nat) (start_idx : Z) (chunks : list string),
    (start_idx < Z.of_nat (List.length tokens))%Z ->
    chunk_loop fuel tokens max_tokens overlap_tokens start_idx chunks = None.
Proof.
  intros Hmax fuel. induction fuel as [|fuel IH]; intros start_idx chunks Hlt; simpl;
    destruct (Z.ltb_spec start_idx (Z.of_nat (List.length tokens))); try lia.
  - reflexivity.
  - apply IH. lia.
Qed.

(** More fuel than the windows need changes nothing. *)
Lemma chunk_loop_fuel_irrelevant (tokens : list token) (max_tokens overlap_tokens : Z)
    (fuel : nat) :
  (0 < max_tokens)%Z -> (0 <= overlap_tokens)%Z ->
  (List.length tokens <= fuel)%nat ->
  chunk_loop fuel tokens max_tokens overlap_tokens 0 []
  = chunk_loop (List.length tokens) tokens max_tokens overlap_tokens 0 [].
Proof.
  intros Hmax Hov Hfuel.
  pose proof (window_count_le (Z.of_nat (List.length tokens)) max_tokens Hmax
                (Nat2Z.is_nonneg _)) as Hc.
  rewrite Nat2Z.id in Hc.
  change 0%Z with (Z.of_nat 0 * max_tokens)%Z.
  rewrite !chunk_loop_windows by lia. reflexivity.
Qed.

End TokenWindows.

Section TokenChunking.
Import PyStr ChunkingUtils.
Context {T : Tokenizer}.

Lemma token_window_length (tokens : list token) (max_tokens overlap_tokens : Z)
    (k : nat) :
  (0 < max_tokens)%Z -> (0 <= overlap_tokens)%Z ->
  let n := Z.of_nat (List.length tokens) in
  (Z.of_nat k * max_tokens < n)%Z ->
  Z.of_nat (List.length (token_window tokens max_tokens overlap_tokens k))
  = Z.min (window_width n max_tokens overlap_tokens k) (n - Z.of_nat k * max_tokens).
Proof.
  intros Hmax Hov n Hlt. unfold token_window. fold n.
  rewrite length_firstn, length_skipn.
  assert (Hw : (0 < window_width n max_tokens overlap_tokens k)%Z).
  { unfold window_width. destruct (_ <? _)%Z; lia. }
  unfold n in *. lia.
Qed.

(** C2.  For [max_tokens > 0] (and an overlap that is a count of tokens,
    [overlap_tokens >= 0]) [chunk_text_by_tokens] returns, and what it
    returns is the decoded, whitespace-normalised, non-empty windows number
    [0], [1], ..., in this order, where window [k] starts at token offset
    [k * max_tokens] (the offset advances by [max_tokens], never by
    [max_tokens - overlap_tokens]), is [max_tokens] tokens wide, and is
    [overlap_tokens] wider exactly when tokens remain beyond offset
    [(k+1) * max_tokens]; a window holds as many tokens of that width as
    the text still has.  A text that is blank emits nothing. *)
Theorem chunk_text_by_tokens_windows (text : string) (max_tokens overlap_tokens : Z) :
  (0 < max_tokens)%Z -> (0 <= overlap_tokens)%Z ->
  let tokens := encode text in
  let n := Z.of_nat (List.length tokens) in
  chunk_text_by_tokens text max_tokens overlap_tokens
  = Some (if truthy (strip text)
          then emit_windows
                 (map (fun k =>
                         firstn (Z.to_nat (if ((Z.of_nat k + 1) * max_tokens <? n)%Z
                                           then max_tokens + overlap_tokens
                                           else max_tokens))
                                (skipn (Z.to_nat (Z.of_nat k * max_tokens)) tokens))
                      (seq 0 (window_count n max_tokens)))
          else [])
  /\ (forall k : nat,
        (Z.of_nat k * max_tokens < n)%Z <-> (k < window_count n max_tokens)%nat)
  /\ (forall k : nat,
        (k < window_count n max_tokens)%nat ->
        Z.of_nat (List.length (token_window tokens max_tokens overlap_tokens k))
        = Z.min (window_width n max_tokens overlap_tokens k)
                (n - Z.of_nat k * max_tokens)).
Proof.
  intros Hmax Hov tokens n.
  assert (Hcount : forall k : nat,
             (Z.of_nat k * max_tokens < n)%Z <-> (k < window_count n max_tokens)%nat).
  { intro k. rewrite <- Z.ltb_lt, <- Nat.ltb_lt.
    rewrite window_count_spec by (unfold n; lia). reflexivity. }
  split; [|split].
  - unfold chunk_text_by_tokens. fold tokens.
    destruct (truthy (strip text)); simpl; [|reflexivity].
    change 0%Z with (Z.of_nat 0 * max_tokens)%Z.
    rewrite chunk_loop_windows; try assumption.
    + simpl. rewrite Nat.sub_0_r. reflexivity.
    + pose proof (window_count_le n max_tokens Hmax (Nat2Z.is_nonneg _)) as Hc.
      unfold n in Hc at 2. rewrite Nat2Z.id in Hc. fold n. lia.
  - exact Hcount.
  - intros k Hk. apply token_window_length; try assumption.
    apply Hcount. exact Hk.
Qed.

End TokenChunking.

(** The text [abcdefg], one token per character, in windows of three
    tokens with one token of overlap. *)
Lemma chunk_text_by_tokens_windows_witness :
  (0 < 3)%Z /\ (0 <= 1)%Z /\
  @ChunkingUtils.chunk_text_by_tokens char_tokenizer "abcdefg" 3 1
  = Some ["abcd"; "defg"; "g"].
Proof.
  split; [lia|]. split; [lia|].
  destruct (@chunk_text_by_tokens_windows char_tokenizer "abcdefg" 3 1) as [H _];
    [lia | lia |].
  rewrite H. reflexivity.
Defined.

(** ** Sentence-mode chunking *)

Section SentenceChunking.
Import PyStr ChunkingUtils.
Context {T : Tokenizer}.

Lemma chunk_text_by_tokens_returns (text : string) (max_tokens overlap_tokens : Z) :
  (0 < max_tokens)%Z -> (0 <= overlap_tokens)%Z ->
  exists chunks, chunk_text_by_tokens text max_tokens overlap_tokens = Some chunks.
Proof.
  intros Hmax Hov. unfold chunk_text_by_tokens.
  destruct (truthy (strip text)); simpl; [|eexists; reflexivity].
  change 0%Z with (Z.of_nat 0 * max_tokens)%Z.
  rewrite chunk_loop_windows; try assumption; [eexists; reflexivity|].
  pose proof (window_count_le (Z.of_nat (List.length (encode text))) max_tokens Hmax
                (Nat2Z.is_nonneg _)) as Hc.
  rewrite Nat2Z.id in Hc. lia.
Qed.

Lemma flush_ok (text : string) (max_tokens : Z) (current_chunk : string)
    (chunks : list string) :
  accumulator_ok max_tokens current_chunk ->
  Forall (fun c => from_accumulator max_tokens c \/ from_fallback text max_tokens c) chunks ->
  Forall (fun c => from_accumulator max_tokens c \/ from_fallback text max_tokens c)
    (if truthy (strip current_chunk)
     then (chunks ++ [clean_text current_chunk])%list else chunks).
Proof.
  intros Hacc Hchunks.
  destruct (truthy (strip current_chunk)) eqn:Hstrip; [|exact Hchunks].
  apply Forall_app. split; [exact Hchunks|].
  constructor; [|constructor]. left. exists current_chunk. split; [reflexivity|].
  destruct Hacc as [Hempty|Hle]; [|exact Hle].
  subst current_chunk. discriminate Hstrip.
Qed.

Lemma sentence_loop_sound (text : string) (max_tokens : Z) :
  (0 < max_tokens)%Z ->
  forall (sentences : list string) (current_chunk : string) (chunks : list string),
    incl sentences (re_split_sentences text) ->
    accumulator_ok max_tokens current_chunk ->
    Forall (fun c => from_accumulator max_tokens c \/ from_fallback text max_tokens c) chunks ->
    exists out,
      sentence_loop sentences max_tokens current_chunk chunks = Some out
      /\ Forall (fun c => from_accumulator max_tokens c \/ from_fallback text max_tokens c) out.
Proof.
  intros Hmax sentences.
  induction sentences as [|sentence rest IH]; intros current_chunk chunks Hincl Hacc Hchunks.
  - simpl. eexists. split; [reflexivity|]. now apply flush_ok.
  - assert (Hrest : incl rest (re_split_sentences text))
      by (intros s Hs; apply Hincl; now right).
    assert (Hin : In sentence (re_split_sentences text)) by (apply Hincl; now left).
    cbn [sentence_loop].
    set (test_chunk := if truthy current_chunk
                       then current_chunk ++ " " ++ sentence else sentence).
    destruct (Z.leb_spec (ntokens test_chunk) max_tokens) as [Hfit|Hover].
    + apply IH; [exact Hrest | right; exact Hfit | exact Hchunks].
    + pose proof (flush_ok text max_tokens current_chunk chunks Hacc Hchunks) as Hflush.
      rewrite Z.gtb_ltb.
      destruct (Z.ltb_spec max_tokens (ntokens sentence)) as [Hlong|Hshort].
      * destruct (chunk_text_by_tokens_returns sentence max_tokens 0 Hmax (Z.le_refl 0))
          as [sub_chunks Hsub].
        rewrite Hsub. apply IH; [exact Hrest | exact Hacc |].
        apply Forall_app. split; [exact Hflush|].
        apply Forall_forall. intros c Hc. right.
        exists sentence, sub_chunks. repeat split; assumption.
      * apply IH; [exact Hrest | right; exact Hshort | exact Hflush].
Qed.


(** The bound on the emitted text itself, for an encoder that never needs
    more tokens for the normalised form of a text than for the text. *)
Lemma sentence_chunks_bound_normalised (text : string) (max_tokens : Z) :
  (forall s, (ntokens (clean_text s) <= ntokens s)%Z) ->
  (0 < max_tokens)%Z ->
  exists chunks,
    chunk_text_by_sentences text max_tokens = Some chunks
    /\ forall c, In c chunks ->
         (ntokens c <= max_tokens)%Z \/ from_fallback text max_tokens c.
Proof.
  intros Hclean Hmax.
  destruct (sentence_loop_sound text max_tokens Hmax (re_split_sentences text)
              EmptyString []) as [out [Hout Hall]];
    [apply incl_refl | now left | constructor |].
  unfold chunk_text_by_sentences.
  destruct (truthy (strip text)); simpl.
  - exists out. split; [exact Hout|]. intros c Hc.
    rewrite Forall_forall in Hall.
    destruct (Hall c Hc) as [[raw [-> Hraw]]|Hfb]; [left|right; exact Hfb].
    specialize (Hclean raw). lia.
  - exists []. split; [reflexivity|]. intros c [].
Qed.

End SentenceChunking.

Section CharacterEncoder.
Import PyStr ChunkingUtils.

Lemma length_list_ascii_of_string (s : string) :
  List.length (list_ascii_of_string s) = String.length s.
Proof.
  induction s as [|c r IH]; simpl; [reflexivity|]. now rewrite IH.
Qed.

(** With one token per character normalisation never adds a token, and
    the bound holds for the emitted text itself. *)
Lemma sentence_chunks_bound_characters (text : string) (max_tokens : Z) :
  (0 < max_tokens)%Z ->
  exists chunks,
    @chunk_text_by_sentences char_tokenizer text max_tokens = Some chunks
    /\ forall c, In c chunks ->
         (@ntokens char_tokenizer c <= max_tokens)%Z
         \/ @from_fallback char_tokenizer text max_tokens c.
Proof.
  apply (@sentence_chunks_bound_normalised char_tokenizer).
  intro s. unfold ntokens. simpl.
  rewrite !length_list_ascii_of_string.
  pose proof (length_clean_text_le s). lia.
Qed.

End CharacterEncoder.



(** ** Chunk identity *)

Section ChunkIdentity.
Import PyStr ChunkingUtils.

Lemma append_cancel_l (p a b : string) : p ++ a = p ++ b -> a = b.
Proof.
  induction p as [|c p IH]; simpl; intro H; [exact H|].
  injection H as H. now apply IH.
Qed.

Lemma str_of_Z_inj (a b : Z) : str_of_Z a = str_of_Z b -> a = b.
Proof.
  unfold str_of_Z. intro H.
  assert (Hnorm : forall z, Z.to_int z <> Decimal.Pos Decimal.Nil
                            /\ Z.to_int z <> Decimal.Neg Decimal.Nil).
  { intros [|p|p]; simpl; split; try discriminate;
      intros [= Hp]; now apply DecimalPos.Unsigned.to_uint_nonnil in Hp. }
  apply DecimalZ.to_int_inj.
  assert (Hs : Some (Z.to_int a) = Some (Z.to_int b)).
  { rewrite <- (NilZero.isi (Z.to_int a)), <- (NilZero.isi (Z.to_int b));
      try apply Hnorm. now rewrite H. }
  now injection Hs.
Qed.

(** Within one process (one [hash]) the identifier is a function of the
    source path, the length of the content and the hash of the content. *)
Lemma chunk_id_function_of_path_length_hash
    (uuid5_url : string -> string) (hash : string -> Z)
    (content content' source_path document_id document_id' title title'
       chapter chapter' section section' : string)
    (metadata metadata' : option Metadata) :
  String.length content = String.length content' ->
  hash content = hash content' ->
  chunk_id (create_chunk_dict uuid5_url hash content source_path document_id
              title chapter section metadata)
  = chunk_id (create_chunk_dict uuid5_url hash content' source_path document_id'
                title' chapter' section' metadata').
Proof.
  intros Hlen Hhash. simpl. unfold chunk_name. now rewrite Hlen, Hhash.
Qed.

(** The identifiers that [chunk_document] assigns are those of the chunk
    texts alone. *)
Lemma chunk_dicts_ids (uuid5_url : string -> string) (hash : string -> Z)
    (chunks : list string) (i total : nat)
    (source_path document_id title chapter section chunk_method : string) :
  map chunk_id (chunk_dicts uuid5_url hash chunks i total source_path document_id
                  title chapter section chunk_method)
  = map (fun c => uuid5_url (chunk_name hash c source_path)) chunks.
Proof.
  revert i. induction chunks as [|c rest IH]; intro i; simpl; [reflexivity|].
  now rewrite IH.
Qed.

(** The name of a chunk carries the hash value in full. *)
Lemma chunk_name_hash (hash1 hash2 : string -> Z) (content source_path : string) :
  chunk_name hash1 content source_path = chunk_name hash2 content source_path ->
  hash1 content = hash2 content.
Proof.
  unfold chunk_name. intro H.
  apply append_cancel_l in H. apply (append_cancel_l "_") in H.
  apply append_cancel_l in H. apply (append_cancel_l "_") in H.
  now apply str_of_Z_inj.
Qed.

(** C3.  Two processes whose [hash] functions disagree on the content give
    the same content at the same source path two different identifiers
    (as long as [uuid5] tells the two names apart): the identifier is not
    stable across runs of the ingestion script. *)
Theorem chunk_id_differs_across_processes
    (uuid5_url : string -> string) (hash1 hash2 : string -> Z)
    (content source_path document_id title chapter section : string)
    (metadata : option Metadata) :
  (forall a b, uuid5_url a = uuid5_url b -> a = b) ->
  hash1 content <> hash2 content ->
  chunk_id (create_chunk_dict uuid5_url hash1 content source_path document_id
              title chapter section metadata)
  <> chunk_id (create_chunk_dict uuid5_url hash2 content source_path document_id
                 title chapter section metadata).
Proof.
  intros Hinj Hhash Hid. simpl in Hid.
  apply Hinj in Hid. apply chunk_name_hash in Hid. contradiction.
Qed.

End ChunkIdentity.

(** The content [hello] of [docs/intro.md], ingested by a process with
    secret 1 and by a process with secret 2, the identifier being the name
    itself under the [urn:uuid:] prefix. *)
Lemma chunk_id_differs_across_processes_witness :
  ChunkingUtils.chunk_id
    (ChunkingUtils.create_chunk_dict (append "urn:uuid:") (keyed_hash 1)
       "hello" "docs/intro.md" "doc" "Intro" "docs" "intro" None)
  <> ChunkingUtils.chunk_id
       (ChunkingUtils.create_chunk_dict (append "urn:uuid:") (keyed_hash 2)
          "hello" "docs/intro.md" "doc" "Intro" "docs" "intro" None).
Proof.
  apply chunk_id_differs_across_processes.
  - intros a b H. exact (append_cancel_l _ _ _ H).
  - vm_compute. discriminate.
Defined.

(** ** Ranking *)

Section StableSort.
Import RetrievalService.
Context {A : Type}.

Lemma insert_desc_perm (x : Q * A) (l : list (Q * A)) :
  Permutation (x :: l) (insert_desc x l).
Proof.
  induction l as [|y rest IH]; simpl; [reflexivity|].
  destruct (Qle_bool (fst y) (fst x)); [reflexivity|].
  rewrite perm_swap. now apply perm_skip.
Qed.

Lemma sort_desc_perm (l : list (Q * A)) : Permutation l (sort_desc l).
Proof.
  induction l as [|x rest IH]; simpl; [reflexivity|].
  rewrite <- insert_desc_perm. now apply perm_skip.
Qed.

Lemma insert_desc_sorted (x : Q * A) (l : list (Q * A)) :
  StronglySorted key_ge l -> StronglySorted key_ge (insert_desc x l).
Proof.
  induction l as [|y rest IH]; simpl; intro Hs.
  - repeat constructor.
  - inversion Hs as [|? ? Hrest Hall]; subst.
    destruct (Qle_bool (fst y) (fst x)) eqn:Hle.
    + apply Qle_bool_iff in Hle.
      constructor; [exact Hs|].
      constructor; [exact Hle|].
      eapply Forall_impl; [|exact Hall].
      intros z Hz. unfold key_ge in *. now apply Qle_trans with (fst y).
    + constructor; [now apply IH|].
      apply (Permutation_Forall (insert_desc_perm x rest)).
      constructor; [|exact Hall].
      unfold key_ge. apply Qlt_le_weak. apply Qnot_le_lt.
      intro Hc. apply Qle_bool_iff in Hc. congruence.
Qed.

Lemma sort_desc_sorted (l : list (Q * A)) : StronglySorted key_ge (sort_desc l).
Proof.
  induction l as [|x rest IH]; simpl; [constructor|].
  now apply insert_desc_sorted.
Qed.

(** Insertion keeps the elements of one key in their order: the new
    element goes in front of the elements of its own key. *)
Lemma insert_desc_stable (q : Q) (x : Q * A) (l : list (Q * A)) :
  filter (fun z => Qeq_bool (fst z) q) (insert_desc x l)
  = filter (fun z => Qeq_bool (fst z) q) (x :: l).
Proof.
  induction l as [|y rest IH]; [reflexivity|].
  simpl insert_desc.
  destruct (Qle_bool (fst y) (fst x)) eqn:Hle; [reflexivity|].
  simpl filter in *. rewrite IH.
  destruct (Qeq_bool (fst x) q) eqn:Hx; [|reflexivity].
  destruct (Qeq_bool (fst y) q) eqn:Hy; [|reflexivity].
  exfalso. apply Qeq_bool_iff in Hx, Hy.
  assert (Hyx : fst y <= fst x) by (rewrite Hx, Hy; apply Qle_refl).
  apply Qle_bool_iff in Hyx. congruence.
Qed.

Lemma sort_desc_stable (q : Q) (l : list (Q * A)) :
  filter (fun z => Qeq_bool (fst z) q) (sort_desc l)
  = filter (fun z => Qeq_bool (fst z) q) l.
Proof.
  induction l as [|x rest IH]; [reflexivity|].
  simpl sort_desc. rewrite insert_desc_stable. simpl. now rewrite IH.
Qed.

End StableSort.

Section Ranking.
Import RetrievalService.

Lemma decorate_scored (chunks : list RetrievalResult) :
  decorate composite_score (map set_composite_score chunks) = Some (map scored chunks).
Proof.
  induction chunks as [|c rest IH]; simpl; [reflexivity|]. now rewrite IH.
Qed.

Lemma scored_well_scored (chunks : list RetrievalResult) :
  Forall well_scored (map scored chunks).
Proof.
  apply Forall_forall. intros z Hz. apply in_map_iff in Hz.
  destruct Hz as [c [<- _]]. split; reflexivity.
Qed.

Lemma filter_snd_well_scored (q : Q) (l : list (Q * RetrievalResult)) :
  Forall well_scored l ->
  filter (fun r => Qeq_bool (similarity_score r) q) (map snd l)
  = map snd (filter (fun z => Qeq_bool (fst z) q) l).
Proof.
  induction 1 as [|z rest [Hz _] _ IH]; [reflexivity|].
  simpl. rewrite Hz, IH. now destruct (Qeq_bool (fst z) q).
Qed.

Lemma sorted_snd_well_scored (l : list (Q * RetrievalResult)) :
  Forall well_scored l -> StronglySorted key_ge l ->
  StronglySorted ranked_before (map snd l).
Proof.
  intros Hall Hs. induction Hs as [|z rest Hrest IH Hz]; simpl; [constructor|].
  inversion Hall as [|? ? [_ Hcz] Hall']; subst.
  constructor; [now apply IH|].
  apply Forall_forall. intros r Hr. apply in_map_iff in Hr.
  destruct Hr as [w [<- Hw]].
  rewrite Forall_forall in Hz, Hall'.
  destruct (Hall' w Hw) as [_ Hcw].
  unfold ranked_before. rewrite Hcz, Hcw. exact (Hz w Hw).
Qed.

Lemma filter_set_composite_score (q : Q) (chunks : list RetrievalResult) :
  filter (fun r => Qeq_bool (similarity_score r) q) (map set_composite_score chunks)
  = map set_composite_score
      (filter (fun r => Qeq_bool (similarity_score r) q) chunks).
Proof.
  induction chunks as [|c rest IH]; [reflexivity|].
  simpl. destruct (Qeq_bool (similarity_score c) q); simpl; now rewrite IH.
Qed.

(** C8.  For every list that the vector search returns, [retrieve_and_rank]
    returns the same results, each with [composite_score] set to its
    [similarity_score], ordered by [composite_score] from the largest to
    the smallest, and for every score the results of that score stand in
    the order in which the search returned them. *)
Theorem retrieve_and_rank_stable
    (search_chunks : string -> Z -> option string -> list RetrievalResult)
    (query : string) (top_k : Z) :
  let results := search_chunks query top_k None in
  exists ranked,
    retrieve_and_rank search_chunks query top_k = Some ranked
    /\ Permutation (map set_composite_score results) ranked
    /\ Forall (fun r => composite_score r = Some (similarity_score r)) ranked
    /\ StronglySorted ranked_before ranked
    /\ forall q : Q,
         filter (fun r => Qeq_bool (similarity_score r) q) ranked
         = map set_composite_score
             (filter (fun r => Qeq_bool (similarity_score r) q) results).
Proof.
  intro results.
  unfold retrieve_and_rank, retrieve_relevant_chunks, sort_by_key_reverse.
  fold results. rewrite decorate_scored.
  pose proof (scored_well_scored results) as Hws.
  assert (Hws' : Forall well_scored (sort_desc (map scored results)))
    by (apply (Permutation_Forall (sort_desc_perm _)); exact Hws).
  eexists. split; [reflexivity|]. repeat split.
  - replace (map set_composite_score results) with (map snd (map scored results))
      by (rewrite map_map; reflexivity).
    apply Permutation_map. apply sort_desc_perm.
  - apply Forall_forall. intros r Hr. apply in_map_iff in Hr.
    destruct Hr as [z [<- Hz]]. rewrite Forall_forall in Hws'.
    destruct (Hws' z Hz) as [Hsim Hcomp]. now rewrite Hsim.
  - apply sorted_snd_well_scored; [exact Hws' | apply sort_desc_sorted].
  - intro q. rewrite filter_snd_well_scored by exact Hws'.
    rewrite sort_desc_stable.
    rewrite <- filter_snd_well_scored by exact Hws.
    rewrite map_map. apply filter_set_composite_score.
Qed.

End Ranking.

(** Three results with scores 1/2, 9/10 and 1/2: the second moves to the
    front and the two results of score 1/2 keep their order. *)
Example retrieve_and_rank_ties :
  option_map (map RetrievalService.chunk_id)
    (RetrievalService.retrieve_and_rank
       (fun _ _ _ => [scored_chunk "a" (1 # 2); scored_chunk "b" (9 # 10);
                      scored_chunk "c" (2 # 4)])
       "query" 5)
  = Some ["b"; "a"; "c"].
Proof. reflexivity. Qed.

(** ** Context-based validation *)

Section BookValidation.
Import PyStr ValidationService.

Lemma known_absence_phrases_lower (phrase : string) :
  In phrase known_absence_phrases -> lower phrase = phrase.
Proof.
  unfold known_absence_phrases. simpl.
  intros [<-|[<-|[<-|[<-|[<-|[<-|[<-|[]]]]]]]]; reflexivity.
Qed.

Lemma any_in_intro (phrases : list string) (phrase s : string) :
  In phrase phrases -> contains phrase s = true -> any_in phrases s = true.
Proof.
  intros Hin Hc. unfold any_in. apply existsb_exists. now exists phrase.
Qed.

Lemma validate_book_based_response_absence (response : string)
    (context_chunks : list RetrievalService.RetrievalResult) :
  any_in known_absence_phrases (lower response) = true ->
  validate_book_based_response response context_chunks
  = {| is_valid := true; issues := []; confidence := 9 # 10 |}.
Proof.
  intro H. unfold validate_book_based_response. rewrite H. reflexivity.
Qed.

(** C4.  An answer that contains, letter case ignored, one of the
    "information not available" phrases is valid with confidence 0.9 and no
    issue, whatever the supporting chunks are; so is the answer
    "This information is not available in the book.". *)
Theorem validate_book_based_response_refusal :
  (forall (response phrase : string)
          (context_chunks : list RetrievalService.RetrievalResult),
      In phrase known_absence_phrases ->
      contains (lower phrase) (lower response) = true ->
      validate_book_based_response response context_chunks
      = {| is_valid := true; issues := []; confidence := 9 # 10 |})
  /\ (forall context_chunks : list RetrievalService.RetrievalResult,
        validate_book_based_response
          "This information is not available in the book." context_chunks
        = {| is_valid := true; issues := []; confidence := 9 # 10 |}).
Proof.
  split.
  - intros response phrase context_chunks Hin Hc.
    apply validate_book_based_response_absence.
    apply any_in_intro with phrase; [exact Hin|].
    now rewrite <- (known_absence_phrases_lower phrase Hin).
  - intro context_chunks. apply validate_book_based_response_absence. reflexivity.
Qed.

(** The method of the same class for selected text takes the same early
    exit. *)
Lemma service_absence_verdict (response selected_text : string) :
  any_in known_absence_phrases (lower response) = true ->
  ValidationService.validate_selected_text_response response selected_text
  = {| is_valid := true; issues := []; confidence := 9 # 10 |}.
Proof.
  intro H. unfold ValidationService.validate_selected_text_response.
  rewrite H. reflexivity.
Qed.

(** With an empty selected text the method of the class flags only an
    answer of more than 50 characters (surrounding whitespace aside), and
    with confidence 0.1. *)
Lemma service_empty_selection_verdict (response : string) :
  any_in known_absence_phrases (lower response) = false ->
  ValidationService.validate_selected_text_response response EmptyString
  = if (len (strip response) >? 50)%Z
    then {| is_valid := false;
            issues := ["Response provided without selected text context"];
            confidence := 1 # 10 |}
    else {| is_valid := true; issues := []; confidence := 1 |}.
Proof.
  intro H. unfold ValidationService.validate_selected_text_response.
  rewrite H. cbn [strip lstrip rstrip truthy negb andb].
  now destruct (len (strip response) >? 50)%Z.
Qed.

Lemma check_indicator_consistent (response_lower : string) (r : Result)
    (indicator : string) :
  consistent r -> consistent (check_indicator response_lower r indicator).
Proof.
  intro Hr. unfold check_indicator.
  destruct (re_search_ignorecase indicator response_lower); [|exact Hr].
  unfold consistent. simpl. split; [discriminate|].
  intro H. now apply app_eq_nil in H as [_ H].
Qed.

Lemma check_indicators_consistent (response_lower : string)
    (indicators : list string) (r : Result) :
  consistent r ->
  consistent (fold_left (check_indicator response_lower) indicators r).
Proof.
  revert r. induction indicators as [|i rest IH]; intros r Hr; simpl; [exact Hr|].
  apply IH. now apply check_indicator_consistent.
Qed.

Lemma validate_book_based_response_consistent (response : string)
    (context_chunks : list RetrievalService.RetrievalResult) :
  consistent (validate_book_based_response response context_chunks).
Proof.
  unfold validate_book_based_response.
  destruct (any_in known_absence_phrases (lower response)).
  - unfold consistent. simpl. tauto.
  - pose proof (check_indicators_consistent (lower response) generic_indicators
                  {| is_valid := true; issues := []; confidence := 1 |}) as Hloop.
    assert (Hc : consistent {| is_valid := true; issues := []; confidence := 1 |})
      by (unfold consistent; simpl; tauto).
    specialize (Hloop Hc).
    destruct context_chunks as [|chunk rest]; [exact Hloop|].
    destruct (_ && _); [|exact Hloop].
    unfold consistent. simpl. split; [discriminate|].
    intro H. now apply app_eq_nil in H as [_ H].
Qed.

End BookValidation.

Lemma validate_book_based_response_refusal_witness :
  In "not found in the book" ValidationService.known_absence_phrases
  /\ PyStr.contains (PyStr.lower "not found in the book")
       (PyStr.lower "Sorry, this is NOT FOUND in the Book.") = true
  /\ ValidationService.validate_book_based_response
       "Sorry, this is NOT FOUND in the Book." []
     = {| ValidationService.is_valid := true;
          ValidationService.issues := [];
          ValidationService.confidence := 9 # 10 |}.
Proof.
  split; [simpl; tauto|]. split; [reflexivity|].
  apply (proj1 validate_book_based_response_refusal _ "not found in the book").
  - simpl. tauto.
  - reflexivity.
Defined.

(** ** Selected-text validation *)

Section SelectedTextValidation.
Import PyStr Validation.

Lemma external_indicators_lower (phrase : string) :
  In phrase external_indicators -> lower phrase = phrase.
Proof.
  unfold external_indicators. simpl.
  intros [<-|[<-|[<-|[<-|[<-|[]]]]]]; reflexivity.
Qed.

(** No indicator occurs in the empty answer. *)
Lemma external_indicator_nonempty (response : string) :
  any_in external_indicators (lower response) = true -> truthy response = true.
Proof.
  destruct response; [discriminate|reflexivity].
Qed.

Lemma validate_selected_text_response_indicator (response selected_text : string) :
  any_in external_indicators (lower response) = true ->
  truthy selected_text = true ->
  validate_selected_text_response response selected_text
  = {| is_valid := true; errors := []; confidence := 1;
       validation_note :=
         Some "Response properly indicates information not available in selected text";
       breakdown := None |}.
Proof.
  intros Hind Hsel. unfold validate_selected_text_response.
  rewrite (external_indicator_nonempty response Hind), Hsel. simpl negb. cbv iota.
  destruct (fold_left _ _ _) as [invalid_sentences valid_sentences].
  rewrite Hind. reflexivity.
Qed.

(** C6.  An answer that contains, letter case ignored, one of the explicit
    refusal phrases of the selected-text mode is valid with confidence 1.0
    and an empty error list, for every non-empty selected text and whatever
    the sentence check found. *)
Theorem validate_selected_text_response_refusal
    (response selected_text phrase : string) :
  In phrase external_indicators ->
  contains (lower phrase) (lower response) = true ->
  selected_text <> EmptyString ->
  validate_selected_text_response response selected_text
  = {| is_valid := true; errors := []; confidence := 1;
       validation_note :=
         Some "Response properly indicates information not available in selected text";
       breakdown := None |}.
Proof.
  intros Hin Hc Hsel.
  apply validate_selected_text_response_indicator.
  - apply any_in_intro with phrase; [exact Hin|].
    now rewrite <- (external_indicators_lower phrase Hin).
  - destruct selected_text; [contradiction|reflexivity].
Qed.


Lemma validate_selected_text_response_consistent (response selected_text : string) :
  is_valid (validate_selected_text_response response selected_text) = true
  <-> errors (validate_selected_text_response response selected_text) = [].
Proof.
  unfold validate_selected_text_response.
  destruct (truthy response); cbn [negb]; [|split; discriminate].
  destruct (truthy selected_text); cbn [negb]; [|split; discriminate].
  destruct (fold_left _ _ _) as [invalid_sentences valid_sentences].
  destruct (any_in external_indicators (lower response)); [simpl; tauto|].
  destruct (_ && _); simpl; [split; discriminate|tauto].
Qed.

End SelectedTextValidation.

Lemma validate_selected_text_response_refusal_witness :
  In "i don't know" Validation.external_indicators
  /\ PyStr.contains (PyStr.lower "i don't know")
       (PyStr.lower "I don't know. The moon is made of cheese.") = true
  /\ "tides and the moon" <> EmptyString
  /\ Validation.is_valid
       (Validation.validate_selected_text_response
          "I don't know. The moon is made of cheese." "tides and the moon") = true.
Proof.
  split; [simpl; tauto|]. split; [reflexivity|]. split; [discriminate|].
  rewrite (validate_selected_text_response_refusal _ "tides and the moon" "i don't know").
  - reflexivity.
  - simpl. tauto.
  - reflexivity.
  - discriminate.
Defined.


(** C10.  In the verdict of [validate_book_based_response] and in the
    verdict of [validate_selected_text_response] of [utils/validation.py],
    [is_valid] is true exactly when the list of issues (errors) is empty. *)
Theorem verdict_consistency :
  (forall (response : string)
          (context_chunks : list RetrievalService.RetrievalResult),
      ValidationService.is_valid
        (ValidationService.validate_book_based_response response context_chunks) = true
      <-> ValidationService.issues
            (ValidationService.validate_book_based_response response context_chunks) = [])
  /\ (forall response selected_text : string,
        Validation.is_valid
          (Validation.validate_selected_text_response response selected_text) = true
        <-> Validation.errors
              (Validation.validate_selected_text_response response selected_text) = []).
Proof.
  split.
  - intros response context_chunks.
    exact (validate_book_based_response_consistent response context_chunks).
  - intros response selected_text.
    exact (validate_selected_text_response_consistent response selected_text).
Qed.

(** ** Sparse context *)

Section SparseContext.
Import PyStr ValidationService.

Lemma validate_book_based_response_flagged (response : string)
    (context_chunks : list RetrievalService.RetrievalResult) :
  any_in known_absence_phrases (lower response) = false ->
  context_chunks <> [] ->
  (len (strip (join " " (map RetrievalService.content context_chunks))) < 50)%Z ->
  (100 < len (strip response))%Z ->
  is_valid (validate_book_based_response response context_chunks) = false
  /\ confidence (validate_book_based_response response context_chunks) = 2 # 10.
Proof.
  intros Habs Hne Hctx Hresp. unfold validate_book_based_response.
  rewrite Habs.
  destruct context_chunks as [|chunk rest]; [contradiction|].
  apply Z.ltb_lt in Hctx. rewrite Hctx.
  rewrite Z.gtb_ltb. apply Z.ltb_lt in Hresp. rewrite Hresp.
  split; reflexivity.
Qed.

(** C5 (as amended).  For an answer without refusal phrase and a list of at
    least one supporting chunk: when the combined supporting text, stripped
    of surrounding whitespace, has fewer than 50 characters and the answer,
    stripped likewise, has more than 100, the verdict is invalid with
    confidence 0.2.  In particular this is the verdict for one supporting
    chunk of 10 characters and an answer of 150 characters that neither
    starts nor ends with whitespace. *)
Theorem validate_book_based_response_sparse :
  (forall (response : string)
          (context_chunks : list RetrievalService.RetrievalResult),
      any_in known_absence_phrases (lower response) = false ->
      context_chunks <> [] ->
      (len (strip (join " " (map RetrievalService.content context_chunks))) < 50)%Z ->
      (100 < len (strip response))%Z ->
      is_valid (validate_book_based_response response context_chunks) = false
      /\ confidence (validate_book_based_response response context_chunks) = 2 # 10)
  /\ (forall (response : string) (chunk : RetrievalService.RetrievalResult),
        any_in known_absence_phrases (lower response) = false ->
        len (RetrievalService.content chunk) = 10%Z ->
        len response = 150%Z ->
        strip response = response ->
        is_valid (validate_book_based_response response [chunk]) = false
        /\ confidence (validate_book_based_response response [chunk]) = 2 # 10).
Proof.
  split.
  - exact validate_book_based_response_flagged.
  - intros response chunk Habs Hctx Hresp Hstrip.
    apply validate_book_based_response_flagged.
    + exact Habs.
    + discriminate.
    + simpl. pose proof (length_strip_le (RetrievalService.content chunk)). lia.
    + rewrite Hstrip. lia.
Qed.

End SparseContext.

(** C5, counterexample.  With no supporting chunk at all a plain answer of
    150 characters is accepted with confidence 1.0; and with a supporting
    text of 10 characters an answer of 95 letters and 10 trailing spaces
    (105 characters) is accepted as well. *)
Lemma validate_book_based_response_sparse_counterexample :
  ~ sparse_context_claim /\ ~ sparse_context_claim_nonempty.
Proof.
  split.
  - intro H. destruct (H (filler 150) []) as [Hvalid _];
      [reflexivity | reflexivity | reflexivity |].
    vm_compute in Hvalid. discriminate Hvalid.
  - intro H.
    destruct (H (filler 95 ++ "          ") [context_chunk "short text"])
      as [Hvalid _]; [discriminate | reflexivity | reflexivity | reflexivity |].
    vm_compute in Hvalid. discriminate Hvalid.
Qed.

(** A supporting text of 10 characters and an answer of 150. *)
Lemma validate_book_based_response_sparse_witness :
  PyStr.any_in ValidationService.known_absence_phrases (PyStr.lower (filler 150)) = false
  /\ [context_chunk "short text"] <> []
  /\ (PyStr.len (PyStr.strip (PyStr.join " "
        (map RetrievalService.content [context_chunk "short text"]))) < 50)%Z
  /\ (100 < PyStr.len (PyStr.strip (filler 150)))%Z
  /\ ValidationService.is_valid
       (ValidationService.validate_book_based_response (filler 150)
          [context_chunk "short text"]) = false
  /\ ValidationService.confidence
       (ValidationService.validate_book_based_response (filler 150)
          [context_chunk "short text"]) = 2 # 10.
Proof.
  split; [reflexivity|]. split; [discriminate|].
  split; [reflexivity|]. split; [reflexivity|].
  apply (proj1 validate_book_based_response_sparse (filler 150)
           [context_chunk "short text"]).
  - reflexivity.
  - discriminate.
  - reflexivity.
  - reflexivity.
Defined.

(** ** Sentence-level verification *)

Section SentenceVerification.
Import PyStr Validation.

Lemma split_go_lstrip (s : string) :
  split_go (lstrip s) EmptyString = split_go s EmptyString.
Proof.
  induction s as [|c r IH]; [reflexivity|].
  simpl. destruct (isspace c) eqn:Hc; [exact IH|].
  simpl. now rewrite Hc.
Qed.

Lemma split_go_cons (c : ascii) (r cur : string) :
  split_go (String c r) cur
  = if isspace c
    then (if truthy cur then cur :: split_go r EmptyString
          else split_go r EmptyString)
    else split_go r (snoc cur c).
Proof. reflexivity. Qed.

Lemma split_go_rstrip (s : string) :
  forall cur, split_go (rstrip s) cur = split_go s cur.
Proof.
  induction s as [|c r IH]; intro cur; [reflexivity|].
  simpl rstrip. destruct (rstrip r) as [|d r'] eqn:Hr.
  - assert (Hblank : forall cur', split_go r cur' = if truthy cur' then [cur'] else [])
      by (intro cur'; rewrite <- IH; reflexivity).
    simpl. destruct (isspace c) eqn:Hc.
    + rewrite Hblank. simpl. now destruct (truthy cur).
    + simpl. rewrite Hc, Hblank. reflexivity.
  - rewrite (split_go_cons c (String d r')), (split_go_cons c r), !IH. reflexivity.
Qed.

Lemma split_strip (s : string) : split (strip s) = split s.
Proof.
  unfold split, strip. now rewrite split_go_rstrip, split_go_lstrip.
Qed.

Lemma meaningful_words_long_words (s : string) :
  meaningful_words (lower s) = long_words s
  /\ meaningful_words (strip (lower s)) = long_words s.
Proof.
  assert (Hf : forall l,
             filter (fun word => (len word >? 3)%Z) l
             = filter (fun w => (3 <? String.length w)%nat) l).
  { intro l. apply filter_ext. intro w. unfold len.
    rewrite Z.gtb_ltb.
    destruct (Z.ltb_spec 3 (Z.of_nat (String.length w)));
      destruct (Nat.ltb_spec 3 (String.length w)); (reflexivity || lia). }
  unfold meaningful_words, long_words, py_set.
  rewrite split_strip, Hf. split; reflexivity.
Qed.

Lemma overlap_below_threshold (common words : nat) :
  (0 < words)%nat ->
  Qltb (py_div common words) (3 # 10) = (10 * common <? 3 * words)%nat.
Proof.
  intro Hw. unfold Qltb, Qle_bool, py_div. simpl Qnum. simpl Qden.
  destruct (Z.leb_spec (3 * Z.pos (Pos.of_nat words)) (Z.of_nat common * 10));
    destruct (Nat.ltb_spec (10 * common) (3 * words)); simpl; (reflexivity || lia).
Qed.

Lemma invalid_above_half (invalid total : nat) :
  (0 < total)%nat ->
  Qltb (1 # 2) (py_div invalid total) = (total <? 2 * invalid)%nat.
Proof.
  intro Ht. unfold Qltb, Qle_bool, py_div. simpl Qnum. simpl Qden.
  destruct (Z.leb_spec (Z.of_nat invalid * 2) (1 * Z.pos (Pos.of_nat total)));
    destruct (Nat.ltb_spec total (2 * invalid)); simpl; (reflexivity || lia).
Qed.

(** One turn of the loop files the sentence under "invalid" when it is
    unsupported and under "valid" when it is supported. *)
Lemma classify_sentence_spec (selected_text sentence : string)
    (invalid_sentences valid_sentences : list string) :
  classify_sentence (lower selected_text) (invalid_sentences, valid_sentences) sentence
  = ((invalid_sentences
        ++ if unsupported selected_text sentence then [sentence] else [])%list,
     (valid_sentences
        ++ if supported selected_text sentence then [sentence] else [])%list).
Proof.
  destruct (meaningful_words_long_words sentence) as [_ Hsent].
  destruct (meaningful_words_long_words selected_text) as [Hsel _].
  unfold classify_sentence, unsupported, supported, overlap.
  rewrite Hsel.
  destruct (truthy (strip (lower sentence))) eqn:Htruthy.
  - rewrite Hsent. destruct (long_words sentence) as [|w ws] eqn:Hwords.
    + simpl. now rewrite !app_nil_r.
    + rewrite overlap_below_threshold by (simpl; lia).
      unfold intersection.
      set (common := List.length (filter _ (w :: ws))).
      set (words := List.length (w :: ws)).
      assert (Hpos : (0 <? words)%nat = true) by reflexivity.
      rewrite Hpos. cbn [andb].
      destruct (Nat.ltb_spec (10 * common) (3 * words));
        destruct (Nat.leb_spec (3 * words) (10 * common)); try lia.
      * now rewrite app_nil_r.
      * now rewrite app_nil_r.
  - assert (Hnone : long_words sentence = []).
    { rewrite <- Hsent. destruct (strip (lower sentence)); [reflexivity|discriminate]. }
    rewrite Hnone. simpl. now rewrite !app_nil_r.
Qed.

Lemma classify_sentences_spec (selected_text : string) (sentences : list string) :
  forall invalid_sentences valid_sentences,
    fold_left (classify_sentence (lower selected_text)) sentences
      (invalid_sentences, valid_sentences)
    = ((invalid_sentences ++ filter (unsupported selected_text) sentences)%list,
       (valid_sentences ++ filter (supported selected_text) sentences)%list).
Proof.
  induction sentences as [|s rest IH]; intros invalid_sentences valid_sentences.
  - simpl. now rewrite !app_nil_r.
  - cbn [fold_left]. rewrite classify_sentence_spec, IH. cbn [filter].
    rewrite <- !app_assoc.
    destruct (unsupported selected_text s); destruct (supported selected_text s);
      reflexivity.
Qed.

(** The verdict on the ordinary path, in terms of the three counts. *)
Lemma validate_selected_text_response_counts (response selected_text : string) :
  truthy response = true ->
  truthy selected_text = true ->
  any_in external_indicators (lower response) = false ->
  let sentences := response_sentences response in
  let total := List.length sentences in
  let invalid := List.length (filter (unsupported selected_text) sentences) in
  let valid := List.length (filter (supported selected_text) sentences) in
  validate_selected_text_response response selected_text
  = {| is_valid := negb (total <? 2 * invalid)%nat;
       errors := if (total <? 2 * invalid)%nat
                 then [outside_context_error invalid total] else [];
       confidence := if (0 <? total)%nat then py_min 1 (py_div valid total) else 0;
       validation_note := None;
       breakdown := Some {| valid_sentences_count := valid;
                            invalid_sentences_count := invalid;
                            total_sentences := total |} |}.
Proof.
  intros Hresp Hsel Hind sentences total invalid valid.
  unfold validate_selected_text_response.
  rewrite Hresp, Hsel. cbn [negb].
  rewrite classify_sentences_spec. cbn [app].
  fold sentences. fold total. fold invalid. fold valid.
  rewrite Hind.
  assert (Hle : (invalid <= total)%nat) by apply filter_length_le.
  assert (Hhalf : ((0 <? total)%nat && Qltb (1 # 2) (py_div invalid total))
                  = (total <? 2 * invalid)%nat).
  { destruct (Nat.ltb_spec 0 total) as [Hpos|Hzero]; cbn [andb].
    - now apply invalid_above_half.
    - symmetry. apply Nat.ltb_ge. lia. }
  rewrite Hhalf. now destruct (total <? 2 * invalid)%nat.
Qed.




End SentenceVerification.



(** * Further properties *)

(** ** Whitespace normalisation *)

Section CleanText.
Import PyStr ChunkingUtils.

Lemma lstrip_head (s : string) :
  lstrip s = EmptyString
  \/ exists c r, lstrip s = String c r /\ isspace c = false.
Proof.
  induction s as [|c r IH]; simpl; [now left|].
  destruct (isspace c) eqn:Hc; [exact IH|].
  right. now exists c, r.
Qed.

Lemma lstrip_nonspace (c : ascii) (r : string) :
  isspace c = false -> lstrip (String c r) = String c r.
Proof. intro Hc. simpl. now rewrite Hc. Qed.

Lemma rstrip_head (c : ascii) (r : string) :
  isspace c = false -> exists r', rstrip (String c r) = String c r'.
Proof.
  intro Hc. simpl. destruct (rstrip r); [rewrite Hc|]; eexists; reflexivity.
Qed.

Lemma rstrip_idempotent (s : string) : rstrip (rstrip s) = rstrip s.
Proof.
  induction s as [|c r IH]; [reflexivity|].
  simpl. destruct (rstrip r) as [|d r'] eqn:Hr.
  - destruct (isspace c) eqn:Hc; [reflexivity|]. simpl. now rewrite Hc.
  - change (rstrip (String c (String d r')))
      with (match rstrip (String d r') with
            | EmptyString => if isspace c then EmptyString else String c EmptyString
            | String e t => String c (String e t)
            end).
    rewrite IH. reflexivity.
Qed.

Lemma lstrip_strip (s : string) : lstrip (strip s) = strip s.
Proof.
  unfold strip. destruct (lstrip_head s) as [->|[c [r [-> Hc]]]]; [reflexivity|].
  destruct (rstrip_head c r Hc) as [r' ->]. now apply lstrip_nonspace.
Qed.

Lemma rstrip_strip (s : string) : rstrip (strip s) = strip s.
Proof. unfold strip. apply rstrip_idempotent. Qed.

Lemma strip_idempotent (s : string) : strip (strip s) = strip s.
Proof.
  unfold strip at 1. rewrite lstrip_strip. apply rstrip_strip.
Qed.

Lemma single_spaced_nonspace_head (c : ascii) (r : string) (b b' : bool) :
  isspace c = false ->
  single_spaced (String c r) b = single_spaced (String c r) b'.
Proof. intro Hc. simpl. now rewrite Hc. Qed.

Lemma single_spaced_collapse_ws (s : string) :
  single_spaced (collapse_ws s false) false = true
  /\ forall b, single_spaced (collapse_ws s true) b = true.
Proof.
  induction s as [|c r [IHf IHt]]; [split; reflexivity|].
  simpl. destruct (isspace c) eqn:Hc.
  - split; [|exact IHt]. simpl. apply IHt.
  - split; [|intro b]; simpl; rewrite Hc; exact IHf.
Qed.

Lemma single_spaced_lstrip (s : string) (b b' : bool) :
  single_spaced s b = true -> single_spaced (lstrip s) b' = true.
Proof.
  revert b. induction s as [|c r IH]; intros b H; [reflexivity|].
  simpl in *. destruct (isspace c) eqn:Hc.
  - apply andb_prop in H as [_ H]. now apply IH with true.
  - simpl. now rewrite Hc.
Qed.

Lemma single_spaced_rstrip (s : string) (b : bool) :
  single_spaced s b = true -> single_spaced (rstrip s) b = true.
Proof.
  revert b. induction s as [|c r IH]; intros b H; [reflexivity|].
  simpl in H. simpl rstrip.
  destruct (isspace c) eqn:Hc.
  - apply andb_prop in H as [Hcb Hr]. specialize (IH true Hr).
    destruct (rstrip r) as [|d r']; [reflexivity|].
    simpl single_spaced at 1. rewrite Hc, Hcb. exact IH.
  - specialize (IH false H).
    destruct (rstrip r) as [|d r']; simpl; rewrite Hc; [reflexivity|exact IH].
Qed.

Lemma collapse_ws_single_spaced (s : string) (b : bool) :
  single_spaced s b = true -> collapse_ws s b = s.
Proof.
  revert b. induction s as [|c r IH]; intros b H; [reflexivity|].
  simpl in *. destruct (isspace c) eqn:Hc.
  - apply andb_prop in H as [H Hr]. apply andb_prop in H as [Hsp Hb].
    apply negb_true_iff in Hb. subst b.
    apply Ascii.eqb_eq in Hsp. subst c. now rewrite (IH true Hr).
  - now rewrite (IH false H).
Qed.

Lemma clean_text_tidy (s : string) : tidy (clean_text s).
Proof.
  unfold tidy, clean_text. split; [|split].
  - unfold strip. apply single_spaced_rstrip.
    apply single_spaced_lstrip with false. apply single_spaced_collapse_ws.
  - apply lstrip_strip.
  - apply rstrip_strip.
Qed.

Lemma tidy_fixed (s : string) : tidy s -> clean_text s = s.
Proof.
  intros [Hs [Hl Hr]]. unfold clean_text.
  rewrite (collapse_ws_single_spaced s false Hs). unfold strip. now rewrite Hl.
Qed.

(** X1.  [clean_text] brings every text into tidy form (single spaces as
    the only whitespace, none at either end) and leaves tidy texts as
    they are; normalising twice is normalising once. *)
Theorem clean_text_normal_form (s : string) :
  tidy (clean_text s)
  /\ (tidy s -> clean_text s = s)
  /\ clean_text (clean_text s) = clean_text s.
Proof.
  split; [apply clean_text_tidy|]. split; [apply tidy_fixed|].
  apply tidy_fixed. apply clean_text_tidy.
Qed.

Lemma truthy_strip (s : string) : truthy (strip s) = has_nonspace s.
Proof.
  unfold strip. induction s as [|c r IH]; [reflexivity|].
  simpl. destruct (isspace c) eqn:Hc; [exact IH|].
  simpl. destruct (rstrip r); [rewrite Hc|]; reflexivity.
Qed.

Lemma has_nonspace_collapse_ws (s : string) (b : bool) :
  has_nonspace (collapse_ws s b) = has_nonspace s.
Proof.
  revert b. induction s as [|c r IH]; intro b; [reflexivity|].
  simpl. destruct (isspace c) eqn:Hc.
  - destruct b; simpl; now rewrite ?IH.
  - simpl. now rewrite Hc.
Qed.

(** A text with a visible character stays non-empty under [clean_text]. *)
Lemma truthy_clean_text (s : string) : truthy (clean_text s) = truthy (strip s).
Proof.
  unfold clean_text. now rewrite !truthy_strip, has_nonspace_collapse_ws.
Qed.

End CleanText.

Lemma clean_text_normal_form_witness :
  tidy "a b" /\ ChunkingUtils.clean_text "a b" = "a b".
Proof.
  assert (H : tidy "a b") by (repeat split; reflexivity).
  split; [exact H|].
  exact (proj1 (proj2 (clean_text_normal_form "a b")) H).
Defined.

Section CleanTextWords.
Import PyStr ChunkingUtils.

Lemma rstrip_nonspace (c : ascii) (y : string) :
  isspace c = false -> rstrip (String c y) = String c (rstrip y).
Proof. intro Hc. simpl. destruct (rstrip y); [now rewrite Hc|reflexivity]. Qed.

Lemma lstrip_collapse_ws (s : string) :
  lstrip (collapse_ws s false) = collapse_ws s true.
Proof.
  destruct s as [|c r]; [reflexivity|].
  simpl. destruct (isspace c) eqn:Hc.
  - simpl. destruct r as [|d r']; [reflexivity|].
    simpl. destruct (isspace d) eqn:Hd; [|simpl; now rewrite Hd].
    clear Hc c. revert d Hd. induction r' as [|e t IH]; intros d Hd; [reflexivity|].
    simpl. destruct (isspace e) eqn:He; [now apply IH with e|].
    simpl. now rewrite He.
  - simpl. now rewrite Hc.
Qed.

Lemma split_go_truthy (s cur : string) :
  Forall (fun w => truthy w = true) (split_go s cur).
Proof.
  revert cur. induction s as [|c r IH]; intro cur; simpl.
  - destruct (truthy cur) eqn:Hcur; repeat constructor. exact Hcur.
  - destruct (isspace c); [|apply IH].
    destruct (truthy cur) eqn:Hcur; [constructor; [exact Hcur|]|]; apply IH.
Qed.

Lemma join_truthy (sep w : string) (l : list string) :
  truthy w = true -> truthy (join sep (w :: l)) = true.
Proof.
  intro Hw. destruct w; [discriminate|]. now destruct l.
Qed.

Lemma append_snoc (cur : string) (c : ascii) (y : string) :
  snoc cur c ++ y = cur ++ String c y.
Proof.
  unfold snoc. induction cur as [|d cur IH]; simpl; [reflexivity|]. now rewrite IH.
Qed.

Lemma join_words (s : string) :
  (forall cur, truthy cur = true ->
     join " " (split_go s cur) = cur ++ rstrip (collapse_ws s false))
  /\ join " " (split_go s EmptyString) = rstrip (collapse_ws s true).
Proof.
  induction s as [|c r [IH1 IH2]].
  - split; [|reflexivity]. intros cur Hcur. simpl. rewrite Hcur. simpl.
    clear Hcur. induction cur; simpl; [reflexivity|]. now f_equal.
  - cbn [collapse_ws]. split.
    + intros cur Hcur. rewrite split_go_cons.
      destruct (isspace c) eqn:Hc.
      * rewrite Hcur.
        pose proof (split_go_truthy r EmptyString) as Hwords.
        destruct (split_go r EmptyString) as [|w l] eqn:Hsplit.
        -- simpl in IH2. simpl. rewrite <- IH2. simpl.
           clear. induction cur; simpl; [reflexivity|]. now f_equal.
        -- change (join " " (cur :: w :: l)) with (cur ++ " " ++ join " " (w :: l)).
           rewrite IH2. f_equal.
           inversion Hwords as [|? ? Hw _]; subst.
           pose proof (join_truthy " " w l Hw) as Hj. rewrite IH2 in Hj.
           change (rstrip (String " " (collapse_ws r true)))
             with (match rstrip (collapse_ws r true) with
                   | EmptyString =>
                       if isspace " " then EmptyString else String " " EmptyString
                   | String e t => String " " (String e t)
                   end).
           destruct (rstrip (collapse_ws r true)); [discriminate|reflexivity].
      * rewrite IH1 by (unfold snoc; now destruct cur).
        rewrite (rstrip_nonspace c _ Hc). apply append_snoc.
    + rewrite split_go_cons. destruct (isspace c) eqn:Hc; [exact IH2|].
      rewrite IH1 by reflexivity. now rewrite (rstrip_nonspace c _ Hc).
Qed.

(** X2.  [clean_text] returns the words of the text, in their order,
    joined by single spaces: it computes [" ".join(text.split())]. *)
Theorem clean_text_joins_words (s : string) :
  clean_text s = join " " (split s).
Proof.
  unfold clean_text, strip, split.
  rewrite lstrip_collapse_ws. symmetry. apply join_words.
Qed.

End CleanTextWords.

(** ** Coverage and termination of token-mode chunking *)

Section WindowCoverage.
Import PyStr ChunkingUtils.
Context {A : Type}.

Lemma firstn_firstn_le (l : list A) (m w : nat) :
  (m <= w)%nat -> firstn m (firstn w l) = firstn m l.
Proof.
  intro H. rewrite firstn_firstn. now rewrite Nat.min_l.
Qed.

Lemma concat_blocks (l : list A) (m : nat) :
  (0 < m)%nat ->
  forall d j : nat,
    (List.length l <= (j + d) * m)%nat ->
    List.concat (map (fun k => firstn m (skipn (k * m) l)) (seq j d)) = skipn (j * m) l.
Proof.
  intros Hm d. induction d as [|d IH]; intros j Hlen.
  - simpl. symmetry. apply skipn_all2. lia.
  - cbn [seq map List.concat]. rewrite IH by lia.
    replace (S j * m)%nat with (m + j * m)%nat by lia.
    rewrite <- skipn_skipn. apply firstn_skipn.
Qed.

Lemma loop_slice_firstn (l : list A) (max_tokens overlap_tokens : Z) (k : nat) :
  (0 < max_tokens)%Z -> (0 <= overlap_tokens)%Z ->
  (Z.of_nat k * max_tokens < Z.of_nat (List.length l))%Z ->
  loop_slice l max_tokens overlap_tokens (Z.of_nat k * max_tokens)
  = firstn (Z.to_nat (if ((Z.of_nat k + 1) * max_tokens <? Z.of_nat (List.length l))%Z
                      then max_tokens + overlap_tokens else max_tokens))
           (skipn (k * Z.to_nat max_tokens) l).
Proof.
  intros Hmax Hov Hlt. unfold loop_slice.
  replace ((Z.of_nat k + 1) * max_tokens)%Z with (Z.of_nat k * max_tokens + max_tokens)%Z
    by lia.
  rewrite py_slice_inside.
  - f_equal; [|f_equal; lia]. f_equal. destruct (_ <? _)%Z; lia.
  - lia.
  - destruct (_ <? _)%Z; lia.
Qed.

End WindowCoverage.

Section TokenCoverage.
Import PyStr ChunkingUtils.
Context {T : Tokenizer}.

(** X3.  For [max_tokens > 0] and [overlap_tokens >= 0] the slices that
    the loop of [chunk_text_by_tokens] takes at the offsets [0],
    [max_tokens], [2 * max_tokens], ... cover the token list without gap:
    their first [max_tokens] tokens, concatenated, are the token list; and
    whatever a slice holds beyond its first [max_tokens] tokens is the
    text's next [overlap_tokens] tokens, with which the following slice
    starts. *)
Theorem token_windows_cover (tokens : list token) (max_tokens overlap_tokens : Z) :
  (0 < max_tokens)%Z -> (0 <= overlap_tokens)%Z ->
  let n := Z.of_nat (List.length tokens) in
  (forall (fuel : nat) (start_idx : Z) (chunks : list string),
      (start_idx < n)%Z ->
      chunk_loop (S fuel) tokens max_tokens overlap_tokens start_idx chunks
      = let chunk_text :=
          clean_text (decode (loop_slice tokens max_tokens overlap_tokens start_idx)) in
        chunk_loop fuel tokens max_tokens overlap_tokens (start_idx + max_tokens)
          (if truthy chunk_text then (chunks ++ [chunk_text])%list else chunks))
  /\ List.concat (map (fun k => firstn (Z.to_nat max_tokens)
                             (loop_slice tokens max_tokens overlap_tokens
                                (Z.of_nat k * max_tokens)))
                 (seq 0 (window_count n max_tokens)))
     = tokens
  /\ forall k : nat,
       (k < window_count n max_tokens)%nat ->
       skipn (Z.to_nat max_tokens)
         (loop_slice tokens max_tokens overlap_tokens (Z.of_nat k * max_tokens))
       = firstn (Z.to_nat overlap_tokens)
           (skipn (Z.to_nat max_tokens)
              (skipn (k * Z.to_nat max_tokens) tokens)).
Proof.
  intros Hmax Hov n.
  assert (Hcount : forall k : nat,
             (k < window_count n max_tokens)%nat ->
             (Z.of_nat k * max_tokens < n)%Z).
  { intros k Hk. apply Z.ltb_lt. rewrite window_count_spec by (unfold n; lia).
    now apply Nat.ltb_lt. }
  split; [|split].
  - intros fuel start_idx chunks Hlt. simpl. fold n.
    apply Z.ltb_lt in Hlt. rewrite Hlt. reflexivity.
  - rewrite (map_ext_in _ (fun k => firstn (Z.to_nat max_tokens)
                                     (skipn (k * Z.to_nat max_tokens) tokens))).
    + rewrite concat_blocks; [reflexivity | lia |].
      destruct (Nat.le_gt_cases (List.length tokens)
                  (window_count n max_tokens * Z.to_nat max_tokens)) as [H|H];
        [simpl; exact H|exfalso].
      assert (Hk : (Z.of_nat (window_count n max_tokens) * max_tokens < n)%Z).
      { apply Nat2Z.inj_lt in H. rewrite Nat2Z.inj_mul, Z2Nat.id in H by lia.
        exact H. }
      apply Z.ltb_lt in Hk. rewrite window_count_spec in Hk by (unfold n; lia).
      apply Nat.ltb_lt in Hk. lia.
    + intros k Hk. apply in_seq in Hk.
      rewrite loop_slice_firstn by (try assumption; apply Hcount; lia).
      apply firstn_firstn_le. destruct (_ <? _)%Z; lia.
  - intros k Hk.
    rewrite loop_slice_firstn by (try assumption; now apply Hcount).
    fold n. rewrite skipn_firstn_comm.
    destruct (Z.ltb_spec ((Z.of_nat k + 1) * max_tokens) n) as [Hmore|Hlast].
    + f_equal. lia.
    + replace (Z.to_nat max_tokens - Z.to_nat max_tokens)%nat with 0%nat by lia.
      simpl. symmetry.
      rewrite skipn_skipn, skipn_all2; [now rewrite firstn_nil|].
      apply Nat2Z.inj_le. rewrite Nat2Z.inj_add, Nat2Z.inj_mul, Z2Nat.id by lia.
      unfold n in Hlast. lia.
Qed.

Lemma chunk_loop_terminates (tokens : list token) (max_tokens overlap_tokens : Z) :
  (0 < max_tokens)%Z ->
  forall (fuel : nat) (start_idx : Z) (chunks : list string),
    (Z.of_nat (List.length tokens) - start_idx <= Z.of_nat fuel * max_tokens)%Z ->
    exists out,
      chunk_loop fuel tokens max_tokens overlap_tokens start_idx chunks = Some out.
Proof.
  intros Hmax fuel. induction fuel as [|fuel IH]; intros start_idx chunks Hfuel; simpl;
    destruct (Z.ltb_spec start_idx (Z.of_nat (List.length tokens))) as [Hlt|Hge];
    try (eexists; reflexivity).
  - lia.
  - apply IH. lia.
Qed.

(** X4.  [chunk_text_by_tokens] fails to return exactly when [max_tokens]
    is zero or negative while the text is not blank and has tokens (for
    any [overlap_tokens]); and then its loop has no end: it is still
    running after any number of turns. *)
Theorem chunk_text_by_tokens_termination (text : string)
    (max_tokens overlap_tokens : Z) :
  (chunk_text_by_tokens text max_tokens overlap_tokens = None
   <-> (max_tokens <= 0)%Z /\ truthy (strip text) = true /\ encode text <> [])
  /\ ((max_tokens <= 0)%Z -> encode text <> [] ->
      forall fuel : nat,
        chunk_loop fuel (encode text) max_tokens overlap_tokens 0 [] = None).
Proof.
  assert (Hdiv : (max_tokens <= 0)%Z -> encode text <> [] ->
                 forall fuel : nat,
                   chunk_loop fuel (encode text) max_tokens overlap_tokens 0 [] = None).
  { intros Hmax Htok fuel. apply chunk_loop_diverges; [exact Hmax|].
    destruct (encode text); [contradiction|simpl; lia]. }
  split; [|exact Hdiv].
  unfold chunk_text_by_tokens. destruct (truthy (strip text)); simpl.
  - split.
    + intro Hnone. destruct (Z.lt_ge_cases 0 max_tokens) as [Hpos|Hle].
      * destruct (chunk_loop_terminates (encode text) max_tokens overlap_tokens Hpos
                    (List.length (encode text)) 0 []) as [out Hout]; [nia|].
        congruence.
      * split; [exact Hle|]. split; [reflexivity|].
        intro Hnil. rewrite Hnil in Hnone. discriminate Hnone.
    + intros [Hmax [_ Htok]]. now apply Hdiv.
  - split; [discriminate|]. intros [_ [H _]]. discriminate H.
Qed.

End TokenCoverage.

Lemma token_windows_cover_witness :
  (0 < 3)%Z /\ (0 <= 1)%Z /\
  List.concat (map (fun k => firstn 3
                     (loop_slice (list_ascii_of_string "abcdefg") 3 1 (Z.of_nat k * 3)))
                   (seq 0 3))
  = list_ascii_of_string "abcdefg".
Proof.
  split; [lia|]. split; [lia|].
  exact (proj1 (proj2 (@token_windows_cover char_tokenizer
                         (list_ascii_of_string "abcdefg") 3 1
                         ltac:(lia) ltac:(lia)))).
Defined.

Lemma chunk_text_by_tokens_termination_witness :
  (0 <= 0)%Z /\ @ChunkingUtils.encode char_tokenizer "abc" <> [] /\
  @ChunkingUtils.chunk_loop char_tokenizer 7
    (@ChunkingUtils.encode char_tokenizer "abc") 0 50 0 [] = None.
Proof.
  split; [lia|]. split; [discriminate|].
  apply (proj2 (@chunk_text_by_tokens_termination char_tokenizer "abc" 0 50)).
  - lia.
  - discriminate.
Defined.

(** ** What the chunkers emit *)

Section EmittedChunks.
Import PyStr ChunkingUtils.
Context {T : Tokenizer}.

Lemma chunk_loop_well_formed (tokens : list token) (max_tokens overlap_tokens : Z) :
  forall (fuel : nat) (start_idx : Z) (chunks out : list string),
    Forall well_formed_chunk chunks ->
    chunk_loop fuel tokens max_tokens overlap_tokens start_idx chunks = Some out ->
    Forall well_formed_chunk out.
Proof.
  intro fuel. induction fuel as [|fuel IH]; intros start_idx chunks out Hchunks; simpl;
    destruct (start_idx <? Z.of_nat (List.length tokens))%Z;
    try discriminate; try (intros [= <-]; exact Hchunks).
  apply IH.
  destruct (truthy (clean_text (decode _))) eqn:Hnonempty; [|exact Hchunks].
  apply Forall_app. split; [exact Hchunks|].
  constructor; [|constructor]. split; [exact Hnonempty|apply clean_text_tidy].
Qed.

Lemma chunk_text_by_tokens_well_formed (text : string)
    (max_tokens overlap_tokens : Z) (chunks : list string) :
  chunk_text_by_tokens text max_tokens overlap_tokens = Some chunks ->
  Forall well_formed_chunk chunks.
Proof.
  unfold chunk_text_by_tokens. destruct (truthy (strip text)); simpl.
  - apply chunk_loop_well_formed. constructor.
  - intros [= <-]. constructor.
Qed.

Lemma flush_well_formed (current_chunk : string) (chunks : list string) :
  Forall well_formed_chunk chunks ->
  Forall well_formed_chunk
    (if truthy (strip current_chunk)
     then (chunks ++ [clean_text current_chunk])%list else chunks).
Proof.
  intro Hchunks. destruct (truthy (strip current_chunk)) eqn:Hs; [|exact Hchunks].
  apply Forall_app. split; [exact Hchunks|].
  constructor; [|constructor]. split; [|apply clean_text_tidy].
  now rewrite truthy_clean_text.
Qed.

Lemma sentence_loop_well_formed (max_tokens : Z) :
  forall (sentences : list string) (current_chunk : string) (chunks out : list string),
    Forall well_formed_chunk chunks ->
    sentence_loop sentences max_tokens current_chunk chunks = Some out ->
    Forall well_formed_chunk out.
Proof.
  intro sentences.
  induction sentences as [|sentence rest IH]; intros current_chunk chunks out Hchunks.
  - simpl. intros [= <-]. now apply flush_well_formed.
  - cbn [sentence_loop].
    destruct (_ <=? max_tokens)%Z; [now apply IH|].
    pose proof (flush_well_formed current_chunk chunks Hchunks) as Hflush.
    destruct (ntokens sentence >? max_tokens)%Z; [|now apply IH].
    destruct (chunk_text_by_tokens sentence max_tokens 0) as [sub_chunks|] eqn:Hsub;
      [|discriminate].
    apply IH. apply Forall_app. split; [exact Hflush|].
    now apply chunk_text_by_tokens_well_formed in Hsub.
Qed.

(** X5.  Whatever the encoder and the limits, neither chunker ever emits an
    empty chunk or a chunk with untidy whitespace: every chunk of
    [chunk_text_by_tokens] and of [chunk_text_by_sentences] is non-empty,
    has single spaces as its only whitespace and none at either end. *)
Theorem chunkers_emit_well_formed_chunks (text : string)
    (max_tokens overlap_tokens : Z) (chunks : list string) :
  chunk_text_by_tokens text max_tokens overlap_tokens = Some chunks
  \/ chunk_text_by_sentences text max_tokens = Some chunks ->
  forall c, In c chunks -> c <> EmptyString /\ tidy c.
Proof.
  intros H c Hc.
  assert (Hall : Forall well_formed_chunk chunks).
  { destruct H as [H|H].
    - now apply chunk_text_by_tokens_well_formed in H.
    - unfold chunk_text_by_sentences in H.
      destruct (truthy (strip text)); simpl in H.
      + apply (sentence_loop_well_formed max_tokens _ _ _ _ (Forall_nil _) H).
      + injection H as <-. constructor. }
  rewrite Forall_forall in Hall. destruct (Hall c Hc) as [Hne Htidy].
  split; [|exact Htidy]. intros ->. discriminate Hne.
Qed.

End EmittedChunks.

Lemma chunkers_emit_well_formed_chunks_witness :
  (@ChunkingUtils.chunk_text_by_tokens char_tokenizer "ab  cd e" 3 0 = Some ["ab"; "cd"; "e"]
   \/ @ChunkingUtils.chunk_text_by_sentences char_tokenizer "ab  cd e" 3
      = Some ["ab"; "cd"; "e"])
  /\ In "cd" ["ab"; "cd"; "e"]
  /\ "cd" <> EmptyString /\ tidy "cd".
Proof.
  assert (H : @ChunkingUtils.chunk_text_by_tokens char_tokenizer "ab  cd e" 3 0
              = Some ["ab"; "cd"; "e"]) by reflexivity.
  assert (Hin : In "cd" ["ab"; "cd"; "e"]) by (simpl; tauto).
  split; [left; exact H|]. split; [exact Hin|].
  exact (@chunkers_emit_well_formed_chunks char_tokenizer "ab  cd e" 3 0
           ["ab"; "cd"; "e"] (or_introl H) "cd" Hin).
Defined.

Section FallbackAccumulator.
Import PyStr ChunkingUtils.
Context {T : Tokenizer}.

Lemma truthy_of_strip (s : string) : truthy (strip s) = true -> truthy s = true.
Proof. destruct s; [discriminate|reflexivity]. Qed.

(** X6.  The accumulated chunk is not reset when the fallback runs: for a
    text of two sentences, of which the first fits the limit and the second
    alone exceeds it, [chunk_text_by_sentences] emits the first sentence,
    then the pieces of the second, and then the first sentence once
    more. *)
Theorem chunk_text_by_sentences_repeats_accumulator
    (text first long : string) (max_tokens : Z) (pieces : list string) :
  truthy (strip text) = true ->
  re_split_sentences text = [first; long] ->
  truthy (strip first) = true ->
  (ntokens first <= max_tokens)%Z ->
  (max_tokens < ntokens (first ++ " " ++ long))%Z ->
  (max_tokens < ntokens long)%Z ->
  chunk_text_by_tokens long max_tokens 0 = Some pieces ->
  chunk_text_by_sentences text max_tokens
  = Some ([clean_text first] ++ pieces ++ [clean_text first])%list.
Proof.
  intros Htext Hsplit Hfirst Hfits Hboth Hlong Hpieces.
  unfold chunk_text_by_sentences. rewrite Htext, Hsplit. cbn [negb sentence_loop truthy].
  apply Z.leb_le in Hfits. rewrite Hfits.
  rewrite (truthy_of_strip first Hfirst).
  apply Z.leb_gt in Hboth. rewrite Hboth.
  rewrite Hfirst.
  rewrite Z.gtb_ltb. apply Z.ltb_lt in Hlong. rewrite Hlong.
  rewrite Hpieces. cbn [sentence_loop app]. reflexivity.
Qed.

End FallbackAccumulator.

Lemma chunk_text_by_sentences_repeats_accumulator_witness :
  @ChunkingUtils.chunk_text_by_sentences char_tokenizer
    "Hello world. Thisisaverylongsentence" 12
  = Some ["Hello world"; "Thisisaveryl"; "ongsentence"; "Hello world"].
Proof.
  apply (@chunk_text_by_sentences_repeats_accumulator char_tokenizer
           "Hello world. Thisisaverylongsentence" "Hello world"
           "Thisisaverylongsentence" 12 ["Thisisaveryl"; "ongsentence"]);
    try reflexivity; vm_compute; congruence.
Defined.

(** ** Chunk records *)

Section ChunkDocument.
Import PyStr ChunkingUtils.
Context {T : Tokenizer}.
Variable uuid5_url : string -> string.
Variable hash : string -> Z.

Lemma chunk_dicts_nth (chunks : list string) (total : nat)
    (path doc_id title chapter section chunk_method : string) :
  forall (first i : nat) (d : Chunk),
    nth_error (chunk_dicts uuid5_url hash chunks first total path doc_id title
                 chapter section chunk_method) i = Some d ->
    exists c,
      nth_error chunks i = Some c
      /\ d = create_chunk_dict uuid5_url hash c path doc_id title chapter section
               (Some {| chunk_index := first + i; total_chunks := total;
                        method := chunk_method |}).
Proof.
  induction chunks as [|c rest IH]; intros first i d H.
  - destruct i; discriminate H.
  - destruct i as [|i]; simpl in H.
    + injection H as <-. exists c. split; [reflexivity|]. now rewrite Nat.add_0_r.
    + destruct (IH (S first) i d H) as [c' [Hc' ->]].
      exists c'. split; [exact Hc'|]. now rewrite Nat.add_succ_r.
Qed.

Lemma chunk_dicts_content (chunks : list string) (first total : nat)
    (path doc_id title chapter section chunk_method : string) :
  map content (chunk_dicts uuid5_url hash chunks first total path doc_id title
                 chapter section chunk_method) = chunks.
Proof.
  revert first. induction chunks as [|c rest IH]; intro first; simpl; [reflexivity|].
  now rewrite IH.
Qed.

(** X7.  [chunk_document] returns one record per chunk of the chosen
    chunker ("sentences", or token mode for any other method name), in the
    chunker's order: record [i] holds chunk [i] as content, the source path
    and document fields it was given, the identifier derived from its
    content and the path, [chunk_index = i] and [total_chunks] equal to the
    number of records. *)
Theorem chunk_document_records
    (text path doc_id ttl chap sect chunk_method : string)
    (max_tokens overlap_tokens : Z) (records : list Chunk) :
  chunk_document uuid5_url hash text path doc_id ttl chap sect chunk_method
    max_tokens overlap_tokens = Some records ->
  (if (chunk_method =? "sentences")%string
   then chunk_text_by_sentences text max_tokens
   else chunk_text_by_tokens text max_tokens overlap_tokens)
  = Some (map content records)
  /\ forall (i : nat) (d : Chunk),
       nth_error records i = Some d ->
       metadata d = Some {| chunk_index := i;
                            total_chunks := List.length records;
                            method := chunk_method |}
       /\ chunk_id d = uuid5_url (chunk_name hash (content d) path)
       /\ source_path d = path /\ document_id d = doc_id
       /\ title d = ttl /\ chapter d = chap /\ section d = sect.
Proof.
  unfold chunk_document.
  destruct (if (chunk_method =? "sentences")%string
            then chunk_text_by_sentences text max_tokens
            else chunk_text_by_tokens text max_tokens overlap_tokens)
    as [chunks|]; [|discriminate].
  intros [= <-]. rewrite chunk_dicts_content. split; [reflexivity|].
  intros i d Hd.
  destruct (chunk_dicts_nth _ _ _ _ _ _ _ _ _ _ _ Hd) as [c [_ ->]].
  simpl. repeat split.
  f_equal. f_equal.
  rewrite <- (chunk_dicts_content chunks 0 (List.length chunks) path doc_id ttl chap
                sect chunk_method) at 1.
  now rewrite length_map.
Qed.

End ChunkDocument.

(** ** Sanitising *)

Section Sanitising.
Import PyStr InputValidation.

Lemma has_char_remove_chars (q p : ascii -> bool) (s : string) :
  has_char q (remove_chars p s) = has_char (fun c => q c && negb (p c)) s.
Proof.
  induction s as [|c r IH]; [reflexivity|].
  simpl. destruct (p c); simpl; rewrite IH.
  - now rewrite andb_false_r.
  - now rewrite andb_true_r.
Qed.

Lemma has_char_ext (p q : ascii -> bool) (s : string) :
  (forall c, p c = q c) -> has_char p s = has_char q s.
Proof.
  intro H. induction s as [|c r IH]; [reflexivity|]. simpl. now rewrite H, IH.
Qed.

Lemma has_char_none (p : ascii -> bool) (s : string) :
  (forall c, p c = false) -> has_char p s = false.
Proof.
  intro H. induction s as [|c r IH]; [reflexivity|]. simpl. now rewrite H, IH.
Qed.

Lemma remove_chars_absent (p : ascii -> bool) (s : string) :
  has_char p s = false -> remove_chars p s = s.
Proof.
  induction s as [|c r IH]; [reflexivity|].
  simpl. intro H. apply orb_false_iff in H as [Hc Hr]. rewrite Hc. now rewrite IH.
Qed.

Lemma has_char_lstrip (p : ascii -> bool) (s : string) :
  has_char p s = false -> has_char p (lstrip s) = false.
Proof.
  induction s as [|c r IH]; [reflexivity|].
  simpl. intro H. destruct (isspace c); [|exact H].
  apply orb_false_iff in H as [_ Hr]. now apply IH.
Qed.

Lemma has_char_rstrip (p : ascii -> bool) (s : string) :
  has_char p s = false -> has_char p (rstrip s) = false.
Proof.
  induction s as [|c r IH]; [reflexivity|].
  simpl. intro H. apply orb_false_iff in H as [Hc Hr]. specialize (IH Hr).
  destruct (rstrip r) as [|a t].
  - destruct (isspace c); simpl; rewrite ?Hc; reflexivity.
  - change (has_char p (String c (String a t)))
      with (p c || has_char p (String a t)).
    now rewrite Hc, IH.
Qed.

Lemma has_char_strip (p : ascii -> bool) (s : string) :
  has_char p s = false -> has_char p (strip s) = false.
Proof.
  intro H. unfold strip. now apply has_char_rstrip, has_char_lstrip.
Qed.

Lemma has_nonspace_has_char (s : string) :
  has_nonspace s = has_char (fun c => negb (isspace c)) s.
Proof.
  induction s as [|c r IH]; [reflexivity|]. simpl. now rewrite IH.
Qed.

(** X8.  Whatever [sanitize_input] returns holds no NUL and no character of
    the removed control class, has no whitespace at either end, and is left
    unchanged by a second pass. *)
Theorem sanitize_input_clean (text : string) :
  has_char is_null (sanitize_input text) = false
  /\ has_char is_control (sanitize_input text) = false
  /\ strip (sanitize_input text) = sanitize_input text
  /\ sanitize_input (sanitize_input text) = sanitize_input text.
Proof.
  assert (Hnull : has_char is_null (sanitize_input text) = false).
  { unfold sanitize_input. destruct text as [|c r]; [reflexivity|]. cbn [truthy negb].
    apply has_char_strip. rewrite !has_char_remove_chars.
    apply has_char_none. intro a. now destruct (is_null a), (is_control a). }
  assert (Hcontrol : has_char is_control (sanitize_input text) = false).
  { unfold sanitize_input. destruct text as [|c r]; [reflexivity|]. cbn [truthy negb].
    apply has_char_strip. rewrite has_char_remove_chars.
    apply has_char_none. intro a. now destruct (is_control a). }
  assert (Hstrip : strip (sanitize_input text) = sanitize_input text).
  { unfold sanitize_input. destruct text as [|c r]; [reflexivity|]. cbn [truthy negb].
    apply strip_idempotent. }
  repeat split; try assumption.
  unfold sanitize_input at 1.
  destruct (truthy (sanitize_input text)); [|reflexivity]. cbn [negb].
  rewrite (remove_chars_absent is_null _ Hnull).
  rewrite (remove_chars_absent is_control _ Hcontrol). exact Hstrip.
Qed.

Lemma truthy_sanitize_input (v : string) :
  truthy (sanitize_input v) = has_char visible v.
Proof.
  unfold sanitize_input. destruct v as [|c r]; [reflexivity|]. cbn [truthy negb].
  rewrite truthy_strip, has_nonspace_has_char, !has_char_remove_chars.
  apply has_char_ext. intro a. unfold visible.
  now destruct (isspace a), (is_null a), (is_control a).
Qed.

(** X9.  [validate_message] hands on an empty message exactly when the
    message is not blank, has at most 10000 characters and none of its
    characters is visible (all are whitespace, NUL or removed control
    characters): the check against empty messages is made before the
    message is sanitised. *)
Theorem validate_message_empty_result (v : string) :
  validate_message v = Accepted EmptyString
  <-> truthy (strip v) = true /\ (len v <= 10000)%Z /\ has_char visible v = false.
Proof.
  assert (Hlen : (len (strip v) =? 0)%Z = negb (truthy (strip v))).
  { unfold len. destruct (strip v); reflexivity. }
  unfold validate_message. rewrite Hlen.
  pose proof (truthy_sanitize_input v) as Hsan.
  destruct (truthy (strip v)) eqn:Hs.
  - rewrite (truthy_of_strip v Hs). cbn [negb orb].
    rewrite Z.gtb_ltb. destruct (Z.ltb_spec 10000 (len v)) as [Hlong|Hshort].
    + split; [discriminate|]. intros [_ [H _]]. lia.
    + split.
      * intros [= Hout]. rewrite Hout in Hsan. simpl in Hsan.
        repeat split; [exact Hshort | now symmetry].
      * intros [_ [_ Hvis]]. rewrite Hvis in Hsan.
        destruct (sanitize_input v); [reflexivity|discriminate].
  - rewrite orb_true_r. split; [discriminate|]. intros [H _]. discriminate H.
Qed.

End Sanitising.

(** ** Identifier format *)

Section UuidFormat.
Import PyStr InputValidation.

Lemma string_app_assoc (a b c : string) : (a ++ b) ++ c = a ++ (b ++ c).
Proof. induction a as [|x a IH]; simpl; [reflexivity|]. now rewrite IH. Qed.

Lemma string_length_app (a b : string) :
  String.length (a ++ b) = (String.length a + String.length b)%nat.
Proof. induction a as [|x a IH]; simpl; [reflexivity|]. now rewrite IH. Qed.

Lemma lower_app (a b : string) : lower (a ++ b) = lower a ++ lower b.
Proof. induction a as [|x a IH]; simpl; [reflexivity|]. now rewrite IH. Qed.














End UuidFormat.


(** ** Checks on the generated answer *)

Section ApiResponse.
Import PyStr InputValidation.

(** X11.  [validate_api_response] accepts exactly the answers that are
    not [None], have at most 100000 characters and, letter case ignored,
    contain none of the words password, secret, api_key, token and
    credential. *)
Theorem validate_api_response_accepts (response : option string) :
  is_valid (validate_api_response response) = true
  <-> exists text,
        response = Some text
        /\ (len text <= 100000)%Z
        /\ forall keyword, In keyword sensitive_keywords ->
                           contains keyword (lower text) = false.
Proof.
  unfold validate_api_response. destruct response as [text|]; cbn [is_valid].
  2:{ simpl. split; [discriminate|]. intros [text [H _]]. discriminate H. }
  assert (Hkeys : any_in sensitive_keywords (lower text) = false
                  <-> forall keyword, In keyword sensitive_keywords ->
                                      contains keyword (lower text) = false).
  { unfold any_in. split.
    - intros H keyword Hin.
      destruct (contains keyword (lower text)) eqn:Hc; [|reflexivity].
      assert (Hex : existsb (fun p => contains p (lower text)) sensitive_keywords = true)
        by (apply existsb_exists; now exists keyword).
      congruence.
    - intro H. destruct (existsb _ _) eqn:Hex; [|reflexivity].
      apply existsb_exists in Hex as [keyword [Hin Hc]].
      rewrite (H keyword Hin) in Hc. discriminate Hc. }
  assert (Htruthy : truthy text && any_in sensitive_keywords (lower text)
                    = any_in sensitive_keywords (lower text)).
  { destruct text; reflexivity. }
  rewrite Htruthy, Z.gtb_ltb.
  destruct (Z.ltb_spec 100000 (len text)) as [Hlong|Hshort];
    destruct (any_in sensitive_keywords (lower text)) eqn:Hany; simpl.
  - split; [discriminate|]. intros [t [[= <-] [H _]]]. lia.
  - split; [discriminate|]. intros [t [[= <-] [H _]]]. lia.
  - split; [discriminate|]. intros [t [[= <-] [_ H]]].
    apply Hkeys in H. congruence.
  - split; [|reflexivity]. intros _. exists text. split; [reflexivity|].
    split; [exact Hshort|]. now apply Hkeys.
Qed.

(** X12.  The answer that the chat endpoint keeps after its first check is
    the generated answer or the fallback sentence, and it always passes
    [validate_api_response]. *)
Theorem checked_response_text_passes (response_text : string) :
  (Chat.checked_response_text response_text = response_text
   \/ Chat.checked_response_text response_text = Chat.fallback_response)
  /\ is_valid (validate_api_response (Some (Chat.checked_response_text response_text)))
     = true.
Proof.
  unfold Chat.checked_response_text.
  destruct (is_valid (validate_api_response (Some response_text))) eqn:Hvalid; simpl.
  - split; [now left|exact Hvalid].
  - split; [now right|reflexivity].
Qed.

End ApiResponse.

Section FallbackUnderSelectedText.
Import PyStr Validation.

(** X13.  When the first check replaces the answer by the fallback
    sentence, the selected-text check accepts that sentence only if at
    least two of its four long words (this, information, available, book)
    are long words of the selected text: the fallback is not one of the
    refusals that this check knows. *)
Theorem fallback_response_under_selected_text (selected_text : string) :
  selected_text <> EmptyString ->
  is_valid (validate_selected_text_response Chat.fallback_response selected_text)
  = (2 <=? List.length
             (filter (fun w => existsb (String.eqb w) (long_words selected_text))
                     fallback_words))%nat.
Proof.
  intro Hsel.
  rewrite validate_selected_text_response_counts;
    [| reflexivity | destruct selected_text; [contradiction|reflexivity] | reflexivity].
  cbn [is_valid].
  change (response_sentences Chat.fallback_response)
    with ["This information is not available in the book"].
  cbn [filter].
  set (hits := List.length (filter _ fallback_words)).
  assert (Hu : unsupported selected_text "This information is not available in the book"
               = (10 * hits <? 12)%nat).
  { unfold unsupported, overlap.
    change (long_words "This information is not available in the book")
      with fallback_words.
    reflexivity. }
  rewrite Hu.
  destruct (Nat.ltb_spec (10 * hits) 12) as [Hfew|Hmany];
    destruct (Nat.leb_spec 2 hits) as [H2|H2]; try lia; reflexivity.
Qed.

End FallbackUnderSelectedText.

Lemma fallback_response_under_selected_text_witness :
  "The book holds this." <> EmptyString
  /\ Validation.is_valid
       (Validation.validate_selected_text_response Chat.fallback_response
          "The book holds this.") = false.
Proof.
  split; [discriminate|].
  rewrite (fallback_response_under_selected_text "The book holds this.");
    [reflexivity|discriminate].
Defined.

(** ** Context string *)

Section ContextString.
Import PyStr RetrievalService.

Lemma contains_unfold (needle hay : string) :
  contains needle hay
  = prefix needle hay
    || match hay with
       | EmptyString => false
       | String _ r => contains needle r
       end.
Proof. destruct hay; reflexivity. Qed.

Lemma prefix_app_l (x a b : string) : prefix x a = true -> prefix x (a ++ b) = true.
Proof.
  revert a. induction x as [|c x IH]; intros a H; [now destruct (a ++ b)|].
  destruct a as [|d a]; [discriminate|].
  simpl in *. destruct (ascii_dec c d); [now apply IH|discriminate].
Qed.

Lemma prefix_self_app (x b : string) : prefix x (x ++ b) = true.
Proof.
  induction x as [|c x IH]; [now destruct b|].
  simpl. destruct (ascii_dec c c); [exact IH|contradiction].
Qed.

Lemma contains_app_l (x a b : string) :
  contains x a = true -> contains x (a ++ b) = true.
Proof.
  induction a as [|c a IH]; intro H.
  - rewrite contains_unfold in H. rewrite orb_false_r in H.
    rewrite contains_unfold. now rewrite (prefix_app_l x EmptyString b H).
  - rewrite contains_unfold in H. apply orb_true_iff in H as [H|H].
    + rewrite contains_unfold. now rewrite (prefix_app_l x (String c a) b H).
    + simpl append. rewrite contains_unfold. rewrite (IH H). apply orb_true_r.
Qed.

Lemma contains_app_r (x a b : string) :
  contains x b = true -> contains x (a ++ b) = true.
Proof.
  intro H. induction a as [|c a IH]; [exact H|].
  simpl append. rewrite contains_unfold, IH. apply orb_true_r.
Qed.

Lemma contains_self_app (x b : string) : contains x (x ++ b) = true.
Proof. rewrite contains_unfold, prefix_self_app. reflexivity. Qed.

Lemma contains_join (x sep : string) (parts : list string) (p : string) :
  In p parts -> contains x p = true -> contains x (join sep parts) = true.
Proof.
  intros Hin Hp. induction parts as [|q rest IH]; [contradiction|].
  destruct Hin as [->|Hin].
  - destruct rest; [exact Hp|]. now apply contains_app_l.
  - destruct rest as [|q' rest']; [contradiction|].
    change (join sep (q :: q' :: rest')) with (q ++ sep ++ join sep (q' :: rest')).
    apply contains_app_r, contains_app_r. now apply IH.
Qed.

(** X14.  The context string handed to the language model shows every
    retrieved chunk: the content and the source path of each chunk occur
    in it; for no chunk it is empty. *)
Theorem get_context_string_shows_chunks (chunks : list RetrievalResult) :
  (forall chunk, In chunk chunks ->
     contains (content chunk) (get_context_string chunks) = true
     /\ contains (source_path chunk) (get_context_string chunks) = true)
  /\ get_context_string [] = EmptyString.
Proof.
  split; [|reflexivity]. intros chunk Hin.
  assert (Hpart : In (context_part chunk) (map context_part chunks))
    by now apply in_map.
  split; apply (contains_join _ _ _ _ Hpart); unfold context_part.
  - apply contains_app_r, contains_app_r, contains_self_app.
  - apply contains_app_l, contains_app_r, contains_self_app.
Qed.

End ContextString.

Lemma get_context_string_shows_chunks_witness :
  In (context_chunk "tides") [context_chunk "moon"; context_chunk "tides"]
  /\ PyStr.contains "tides"
       (RetrievalService.get_context_string
          [context_chunk "moon"; context_chunk "tides"]) = true.
Proof.
  assert (Hin : In (context_chunk "tides") [context_chunk "moon"; context_chunk "tides"])
    by (simpl; tauto).
  split; [exact Hin|].
  exact (proj1 (proj1 (get_context_string_shows_chunks _) _ Hin)).
Defined.

(** ** Ranking of ordered results *)

Section RankingOrdered.
Import RetrievalService.

Lemma sort_desc_sorted_fixed {A : Type} (l : list (Q * A)) :
  StronglySorted key_ge l -> sort_desc l = l.
Proof.
  induction 1 as [|x l Hl IH Hx]; [reflexivity|].
  simpl. rewrite IH. destruct l as [|y rest]; [reflexivity|].
  simpl. inversion Hx as [|? ? Hxy _]; subst.
  unfold key_ge in Hxy. apply Qle_bool_iff in Hxy. now rewrite Hxy.
Qed.

(** X15.  When the search returns its results from the highest similarity
    score to the lowest, as a vector store does, [retrieve_and_rank]
    returns them in the same order: it only adds [composite_score]. *)
Theorem retrieve_and_rank_keeps_order
    (search_chunks : string -> Z -> option string -> list RetrievalResult)
    (query : string) (top_k : Z) :
  StronglySorted (fun a b => similarity_score b <= similarity_score a)
    (search_chunks query top_k None) ->
  retrieve_and_rank search_chunks query top_k
  = Some (map set_composite_score (search_chunks query top_k None)).
Proof.
  intro Hsorted.
  unfold retrieve_and_rank, retrieve_relevant_chunks, sort_by_key_reverse.
  rewrite decorate_scored.
  rewrite sort_desc_sorted_fixed; [now rewrite map_map|].
  induction Hsorted as [|c rest Hrest IH Hc]; simpl; constructor; [exact IH|].
  apply Forall_forall. intros z Hz. apply in_map_iff in Hz as [d [<- Hd]].
  rewrite Forall_forall in Hc. exact (Hc d Hd).
Qed.

End RankingOrdered.

Lemma retrieve_and_rank_keeps_order_witness :
  option_map (map RetrievalService.chunk_id)
    (RetrievalService.retrieve_and_rank
       (fun _ _ _ => [scored_chunk "a" (9 # 10); scored_chunk "b" (1 # 2);
                      scored_chunk "c" (2 # 4)])
       "query" 5)
  = Some ["a"; "b"; "c"].
Proof.
  rewrite (retrieve_and_rank_keeps_order
             (fun _ _ _ => [scored_chunk "a" (9 # 10); scored_chunk "b" (1 # 2);
                            scored_chunk "c" (2 # 4)]) "query" 5).
  - reflexivity.
  - repeat constructor; simpl; unfold Qle; simpl; lia.
Defined.

(** ** Verdicts of the validation service *)

Section ServiceVerdicts.
Import PyStr ValidationService.

Lemma lower_char_idempotent (c : ascii) : lower_char (lower_char c) = lower_char c.
Proof. destruct c as [[] [] [] [] [] [] [] []]; reflexivity. Qed.

Lemma lower_idempotent (s : string) : lower (lower s) = lower s.
Proof.
  induction s as [|c r IH]; simpl; [reflexivity|].
  now rewrite lower_char_idempotent, IH.
Qed.

Lemma generic_indicators_literals :
  map (fun pattern => lower (pattern_literal pattern)) generic_indicators
  = generic_literals.
Proof. reflexivity. Qed.

Lemma generic_search_hit (response : string) :
  existsb (fun indicator => re_search_ignorecase indicator (lower response))
    generic_indicators
  = sounds_generic response.
Proof.
  unfold sounds_generic. rewrite <- generic_indicators_literals.
  unfold re_search_ignorecase. rewrite lower_idempotent.
  induction generic_indicators as [|i rest IH]; [reflexivity|].
  simpl. now rewrite IH.
Qed.

(** The loop over the patterns: validity, confidence and the number of
    issues after it. *)
Lemma check_indicators_verdict (response_lower : string) (indicators : list string) :
  forall r : Result,
    let hit := existsb (fun i => re_search_ignorecase i response_lower) indicators in
    let after := fold_left (check_indicator response_lower) indicators r in
    is_valid after = is_valid r && negb hit
    /\ confidence after = (if hit then 3 # 10 else confidence r)
    /\ List.length (issues after)
       = (List.length (issues r)
          + List.length (filter (fun i => re_search_ignorecase i response_lower)
                                indicators))%nat.
Proof.
  induction indicators as [|i rest IH]; intro r; simpl.
  - rewrite andb_true_r, Nat.add_0_r. repeat split.
  - destruct (IH (check_indicator response_lower r i)) as [Hv [Hc Hn]].
    rewrite Hv, Hc, Hn. unfold check_indicator.
    destruct (re_search_ignorecase i response_lower); simpl.
    + repeat split.
      * now rewrite andb_false_r.
      * now destruct (existsb _ rest).
      * rewrite length_app. simpl. lia.
    + repeat split.
Qed.

(** X16.  The verdict of [validate_book_based_response] in full: an answer
    that admits absence is valid with confidence 0.9; any other answer is
    valid exactly when it holds none of the nine generic-knowledge literals
    (anywhere, also inside a longer word) and the context is not sparse
    for it, and its confidence is 0.2 under a sparse context, else 0.3 if
    it sounds generic, else 1.0. *)
Theorem validate_book_based_response_verdict (response : string)
    (context_chunks : list RetrievalService.RetrievalResult) :
  let verdict := validate_book_based_response response context_chunks in
  is_valid verdict
  = admits_absence response
    || (negb (sounds_generic response) && negb (sparse_context response context_chunks))
  /\ confidence verdict
     = (if admits_absence response then 9 # 10
        else if sparse_context response context_chunks then 2 # 10
        else if sounds_generic response then 3 # 10
        else 1).
Proof.
  unfold validate_book_based_response, admits_absence.
  destruct (any_in known_absence_phrases (lower response)); [split; reflexivity|].
  destruct (check_indicators_verdict (lower response) generic_indicators
              {| is_valid := true; issues := []; confidence := 1 |}) as [Hv [Hc _]].
  rewrite generic_search_hit in Hv, Hc. cbn [is_valid confidence] in Hv, Hc.
  rewrite andb_true_l in Hv.
  cbn [orb]. unfold sparse_context.
  destruct context_chunks as [|chunk rest].
  - rewrite Hv, Hc. rewrite andb_true_r. split; [reflexivity|].
    now destruct (sounds_generic response).
  - rewrite Z.gtb_ltb.
    set (flag := ((len (strip (join " " (map RetrievalService.content (chunk :: rest))))
                   <? 50)%Z && (100 <? len (strip response))%Z)%bool).
    destruct flag.
    + cbn [is_valid confidence]. now rewrite andb_false_r.
    + rewrite Hv, Hc. rewrite andb_true_r. split; [reflexivity|].
      now destruct (sounds_generic response).
Qed.

(** X17.  The selected-text method of the service rejects an answer in one
    case only: the answer does not admit absence, the selected text is
    blank, and the answer, stripped, has more than 50 characters.  In
    particular a low word overlap with a non-blank selected text lowers the
    confidence but leaves the verdict valid. *)
Theorem service_selected_text_verdict (response selected_text : string) :
  is_valid (ValidationService.validate_selected_text_response response selected_text)
  = negb (negb (admits_absence response)
          && negb (truthy (strip selected_text))
          && (50 <? len (strip response))%Z).
Proof.
  unfold ValidationService.validate_selected_text_response, admits_absence.
  destruct (any_in known_absence_phrases (lower response)); [reflexivity|].
  rewrite !Z.gtb_ltb. cbn [negb andb].
  set (blank := (negb (truthy (strip selected_text))
                 && (50 <? len (strip response))%Z)%bool).
  set (long := (truthy selected_text && (20 <? len (strip response))%Z)%bool).
  destruct blank, long; try reflexivity;
    destruct (py_set (split (lower selected_text))); try reflexivity;
    match goal with |- context [if ?b then _ else _] => destruct b end; reflexivity.
Qed.

End ServiceVerdicts.

(** ** The cache *)

Section CacheFacts.
Import Cache.
Variable Value : Type.
Variable Time : Type.
Variable elapsed_below : Time -> Time -> Z -> bool.

Lemma lookup_remove (key : string) (d : Entries Value Time) : lookup key (remove key d) = None.
Proof.
  induction d as [|[k item] rest IH]; [reflexivity|].
  simpl. destruct (k =? key)%string eqn:Hk; [exact IH|]. simpl. now rewrite Hk.
Qed.

Lemma lookup_remove_other (key k' : string) (d : Entries Value Time) :
  k' <> key -> lookup k' (remove key d) = lookup k' d.
Proof.
  intro Hne. induction d as [|[k item] rest IH]; [reflexivity|].
  simpl. destruct (k =? key)%string eqn:Hk.
  - apply String.eqb_eq in Hk. subst k.
    destruct (key =? k')%string eqn:Hk'; [|exact IH].
    apply String.eqb_eq in Hk'. congruence.
  - simpl. now rewrite IH.
Qed.

Lemma lookup_app (key : string) (d d' : Entries Value Time) :
  lookup key (d ++ d')%list
  = match lookup key d with Some item => Some item | None => lookup key d' end.
Proof.
  induction d as [|[k item] rest IH]; [reflexivity|].
  simpl. now destruct (k =? key)%string.
Qed.

Lemma lookup_assign (key : string) (item : Cache.Item Value Time) (d : Entries Value Time) :
  lookup key (assign key item d) = Some item.
Proof.
  induction d as [|[k old] rest IH]; simpl.
  - now rewrite String.eqb_refl.
  - destruct (k =? key)%string eqn:Hk; simpl; rewrite Hk; [reflexivity|exact IH].
Qed.

Lemma lookup_assign_other (key k' : string) (item : Cache.Item Value Time) (d : Entries Value Time) :
  k' <> key -> lookup k' (assign key item d) = lookup k' d.
Proof.
  intro Hne. induction d as [|[k old] rest IH]; simpl.
  - destruct (key =? k')%string eqn:Hk; [|reflexivity].
    apply String.eqb_eq in Hk. congruence.
  - destruct (k =? key)%string eqn:Hk; simpl.
    + apply String.eqb_eq in Hk. subst k.
      destruct (key =? k')%string eqn:Hk'; [|reflexivity].
      apply String.eqb_eq in Hk'. congruence.
    + now rewrite IH.
Qed.

Lemma keys_remove (key : string) (d : Entries Value Time) :
  map fst (remove key d) = filter (other_than key) (map fst d).
Proof.
  induction d as [|[k item] rest IH]; [reflexivity|].
  simpl. unfold other_than at 1. destruct (k =? key)%string; simpl; now rewrite IH.
Qed.

Lemma keys_remove_assign (key : string) (item : Cache.Item Value Time) (d : Entries Value Time) :
  map fst (remove key (assign key item d)) = filter (other_than key) (map fst d).
Proof.
  induction d as [|[k old] rest IH]; simpl.
  - now rewrite String.eqb_refl.
  - unfold other_than at 1. destruct (k =? key)%string eqn:Hk; simpl; rewrite Hk; simpl.
    + apply keys_remove.
    + now rewrite IH.
Qed.

Lemma move_to_end_assign (key : string) (item : Cache.Item Value Time) (d : Entries Value Time) :
  move_to_end key (assign key item d)
  = Some (remove key (assign key item d) ++ [(key, item)])%list.
Proof. unfold move_to_end. now rewrite lookup_assign. Qed.

Lemma length_filter_other (key : string) (l : list string) :
  (List.length (filter (other_than key) l) <= List.length l)%nat.
Proof. apply filter_length_le. Qed.

Lemma filter_other_absent (key : string) (l : list string) :
  ~ In key l -> filter (other_than key) l = l.
Proof.
  induction l as [|k l IH]; intro Hnot; [reflexivity|].
  simpl. unfold other_than at 1. destruct (k =? key)%string eqn:Hk.
  - apply String.eqb_eq in Hk. subst k. exfalso. apply Hnot. now left.
  - simpl. rewrite IH; [reflexivity|]. intro H. apply Hnot. now right.
Qed.

Lemma NoDup_filter_snoc (key : string) (l : list string) :
  NoDup l -> NoDup (filter (other_than key) l ++ [key]).
Proof.
  intro Hnd. apply NoDup_app.
  - now apply NoDup_filter.
  - repeat constructor. intros [].
  - intros x Hx [<-|[]]. apply filter_In in Hx as [_ Hx].
    unfold other_than in Hx. now rewrite String.eqb_refl in Hx.
Qed.

Lemma put_some (c c' : LRUCache Value Time) (key : string) (value : Value) (now : Time) :
  put c key value now = Some c' ->
  c' = with_cache c (remove key (assign key (value, now) (room_made c))
                       ++ [(key, (value, now))])%list.
Proof.
  unfold put, room_made.
  destruct (Z.of_nat (List.length (cache c)) >=? max_size c)%Z.
  - destruct (cache c) as [|e rest]; [discriminate|]. cbn [popitem_first tl].
    rewrite move_to_end_assign. now intros [= <-].
  - rewrite move_to_end_assign. now intros [= <-].
Qed.

Lemma put_none_iff (c : LRUCache Value Time) (key : string) (value : Value) (now : Time) :
  put c key value now = None <-> cache c = [] /\ (max_size c <= 0)%Z.
Proof.
  unfold put. rewrite Z.geb_leb.
  destruct (Z.leb_spec (max_size c) (Z.of_nat (List.length (cache c)))) as [Hfull|Hroom].
  - destruct (cache c) as [|e rest] eqn:Hc.
    + simpl in Hfull. split; [intros _; split; [reflexivity|lia]|reflexivity].
    + cbn [popitem_first]. rewrite move_to_end_assign.
      split; [discriminate|]. intros [H _]. discriminate H.
  - rewrite move_to_end_assign. split; [discriminate|].
    intros [H Hmax]. rewrite H in Hroom. simpl in Hroom. lia.
Qed.

Lemma put_keys (c c' : LRUCache Value Time) (key : string) (value : Value) (now : Time) :
  put c key value now = Some c' ->
  cache_keys c'
  = (filter (other_than key)
       (if (Z.of_nat (List.length (cache c)) >=? max_size c)%Z
        then tl (cache_keys c) else cache_keys c) ++ [key])%list.
Proof.
  intro Hput. apply put_some in Hput. subst c'.
  unfold cache_keys. cbn [cache with_cache].
  rewrite map_app, keys_remove_assign. unfold room_made.
  destruct (_ >=? _)%Z; [|reflexivity]. now destruct (cache c).
Qed.

Lemma put_lookup (c c' : LRUCache Value Time) (key : string) (value : Value) (now : Time) :
  put c key value now = Some c' -> lookup key (cache c') = Some (value, now).
Proof.
  intro Hput. apply put_some in Hput. subst c'. cbn [cache with_cache].
  rewrite lookup_app, lookup_remove. simpl. now rewrite String.eqb_refl.
Qed.

(** X18.  [put] raises (the [KeyError] of [popitem] on an empty
    dictionary) exactly when the cache is empty and [max_size] is zero or
    negative; [get] never raises. *)
Theorem cache_put_raises (c : LRUCache Value Time) (key : string) (value : Value)
    (now : Time) :
  (put c key value now = None <-> cache c = [] /\ (max_size c <= 0)%Z)
  /\ get elapsed_below c key now <> None.
Proof.
  split; [apply put_none_iff|].
  unfold get, move_to_end.
  destruct (lookup key (cache c)) as [item|]; [|discriminate].
  destruct (elapsed_below now (snd item) (ttl c)); discriminate.
Qed.

(** X19.  After [put] the key is the most recent one: the keys are the
    earlier keys without the put key, in their order, less the oldest key
    when the cache was full, followed by the put key; the entry holds the
    new value and the time of the call.  The oldest key is dropped from a
    full cache even when the put key is already cached, so that the cache
    then ends one entry short of full. *)
Theorem cache_put_order (c c' : LRUCache Value Time) (key : string) (value : Value) (now : Time) :
  put c key value now = Some c' ->
  cache_keys c'
  = (filter (other_than key)
       (if (Z.of_nat (List.length (cache c)) >=? max_size c)%Z
        then tl (cache_keys c) else cache_keys c) ++ [key])%list
  /\ lookup key (cache c') = Some (value, now)
  /\ (forall oldest rest,
        cache_keys c = oldest :: rest ->
        NoDup (cache_keys c) ->
        Z.of_nat (List.length (cache c)) = max_size c ->
        In key rest ->
        ~ In oldest (cache_keys c')
        /\ size c' = (max_size c - 1)%Z).
Proof.
  intro Hput. apply put_some in Hput. subst c'.
  assert (Hkeys : cache_keys (with_cache c
                     (remove key (assign key (value, now) (room_made c))
                        ++ [(key, (value, now))])%list)
                  = (filter (other_than key) (map fst (room_made c)) ++ [key])%list).
  { unfold cache_keys. cbn [cache with_cache].
    now rewrite map_app, keys_remove_assign. }
  split; [|split].
  - rewrite Hkeys. unfold room_made, cache_keys.
    destruct (_ >=? _)%Z; [|reflexivity]. now destruct (cache c).
  - cbn [cache with_cache]. rewrite lookup_app, lookup_remove. simpl.
    now rewrite String.eqb_refl.
  - intros oldest rest Hc Hnd Hfull Hin.
    assert (Hroom : map fst (room_made c) = rest).
    { unfold room_made. rewrite Hfull, Z.geb_leb, Z.leb_refl.
      unfold cache_keys in Hc. destruct (cache c); [discriminate|].
      simpl in Hc. now injection Hc. }
    rewrite Hkeys, Hroom. rewrite Hc in Hnd.
    apply NoDup_cons_iff in Hnd as [Hnotin Hrest].
    split.
    + intro H. apply in_app_or in H as [H|[<-|[]]].
      * apply filter_In in H as [H _]. contradiction.
      * contradiction.
    + unfold size. cbn [cache with_cache].
      rewrite <- (length_map fst), map_app, keys_remove_assign, Hroom.
      rewrite length_app. simpl.
      assert (Hlen : (List.length (filter (other_than key) rest) + 1
                      = List.length rest)%nat).
      { clear - Hrest Hin. induction rest as [|k rest IH]; [contradiction|].
        apply NoDup_cons_iff in Hrest as [Hk Hnd]. simpl. unfold other_than at 1.
        destruct (k =? key)%string eqn:Heq; simpl.
        - apply String.eqb_eq in Heq. subst k.
          rewrite (filter_other_absent key rest Hk). lia.
        - destruct Hin as [->|Hin]; [now rewrite String.eqb_refl in Heq|].
          rewrite <- (IH Hnd Hin). lia. }
      assert (Hsize : List.length (cache c) = S (List.length rest)).
      { rewrite <- (length_map fst (cache c)). unfold cache_keys in Hc.
        now rewrite Hc. }
      rewrite Hlen, <- Hfull, Hsize. lia.
Qed.

End CacheFacts.

Section CacheInvariant.
Import Cache.
Variable Value : Type.
Variable Time : Type.
Variable elapsed_below : Time -> Time -> Z -> bool.

Lemma lookup_in_keys (key : string) (d : Entries Value Time) (item : Item Value Time) :
  lookup key d = Some item -> In key (map fst d).
Proof.
  induction d as [|[k i] rest IH]; [discriminate|].
  simpl. destruct (k =? key)%string eqn:Hk.
  - intros _. left. now apply String.eqb_eq.
  - intro H. right. now apply IH.
Qed.

Lemma length_filter_present (key : string) (l : list string) :
  NoDup l -> In key l ->
  (List.length (filter (other_than key) l) + 1 = List.length l)%nat.
Proof.
  induction l as [|k l IH]; intros Hnd Hin; [contradiction|].
  apply NoDup_cons_iff in Hnd as [Hk Hnd]. simpl. unfold other_than at 1.
  destruct (k =? key)%string eqn:Heq; simpl.
  - apply String.eqb_eq in Heq. subst k.
    rewrite (filter_other_absent key l Hk). lia.
  - destruct Hin as [->|Hin]; [now rewrite String.eqb_refl in Heq|].
    rewrite <- (IH Hnd Hin). lia.
Qed.

Lemma put_ok (limit : Z) (c : LRUCache Value Time) (key : string) (value : Value)
    (now : Time) :
  (1 <= limit)%Z -> cache_ok limit c ->
  exists c', put c key value now = Some c' /\ cache_ok limit c'.
Proof.
  intros Hlimit [Hmax [Hlen Hnd]].
  destruct (put c key value now) as [c'|] eqn:Hput.
  2:{ apply put_none_iff in Hput. destruct Hput as [_ Hput]. lia. }
  exists c'. split; [reflexivity|].
  pose proof (put_keys Value Time c c' key value now Hput) as Hkeys.
  apply put_some in Hput. unfold cache_ok. rewrite Hkeys.
  split; [subst c'; exact Hmax|].
  assert (Hroom : NoDup (if (Z.of_nat (List.length (cache c)) >=? max_size c)%Z
                         then tl (cache_keys c) else cache_keys c)
                  /\ (Z.of_nat (List.length
                        (if (Z.of_nat (List.length (cache c)) >=? max_size c)%Z
                         then tl (cache_keys c) else cache_keys c)) + 1 <= limit)%Z).
  { unfold cache_keys in *. rewrite Z.geb_leb.
    destruct (Z.leb_spec (max_size c) (Z.of_nat (List.length (cache c)))) as [Hfull|Hfree].
    - destruct (cache c) as [|e rest]; simpl in *; [lia|].
      apply NoDup_cons_iff in Hnd as [_ Hnd]. split; [exact Hnd|].
      rewrite length_map. lia.
    - split; [exact Hnd|]. rewrite length_map. lia. }
  destruct Hroom as [Hnd' Hlen'].
  split; [|now apply NoDup_filter_snoc].
  rewrite <- (length_map fst (cache c')).
  change (map fst (cache c')) with (cache_keys c').
  rewrite Hkeys, length_app. simpl.
  pose proof (length_filter_other key
                (if (Z.of_nat (List.length (cache c)) >=? max_size c)%Z
                 then tl (cache_keys c) else cache_keys c)). lia.
Qed.

Lemma remove_ok (limit : Z) (c : LRUCache Value Time) (key : string) :
  cache_ok limit c -> cache_ok limit (with_cache c (remove key (cache c))).
Proof.
  intros [Hmax [Hlen Hnd]]. unfold cache_ok, cache_keys in *. cbn [cache with_cache max_size].
  rewrite keys_remove. split; [exact Hmax|]. split; [|now apply NoDup_filter].
  rewrite <- (length_map fst), keys_remove.
  pose proof (length_filter_other key (map fst (cache c))).
  rewrite length_map in H. lia.
Qed.

Lemma get_ok (limit : Z) (c : LRUCache Value Time) (key : string) (now : Time) :
  cache_ok limit c ->
  exists c' result, get elapsed_below c key now = Some (c', result) /\ cache_ok limit c'.
Proof.
  intro Hok. unfold get, move_to_end.
  destruct (lookup key (cache c)) as [item|] eqn:Hlook.
  - destruct (elapsed_below now (snd item) (ttl c)).
    + eexists. eexists. split; [reflexivity|].
      destruct Hok as [Hmax [Hlen Hnd]].
      unfold cache_ok, cache_keys in *. cbn [cache with_cache max_size].
      rewrite map_app, keys_remove. simpl.
      split; [exact Hmax|]. split; [|now apply NoDup_filter_snoc].
      rewrite <- (length_map fst), map_app, keys_remove, length_app. simpl.
      rewrite (length_filter_present key _ Hnd (lookup_in_keys _ _ _ Hlook)).
      rewrite length_map. exact Hlen.
    + eexists. eexists. split; [reflexivity|]. now apply remove_ok.
  - eexists. eexists. split; [reflexivity|exact Hok].
Qed.

(** X20.  A cache created with [max_size >= 1] never raises and never
    holds more than [max_size] entries, nor a key twice, whatever series of
    [get], [put], [delete] and [clear] is made on it and whatever the clock
    reads. *)
Theorem cache_size_bounded (limit ttl : Z) (calls : list (cache_call Value Time)) :
  (1 <= limit)%Z ->
  exists c,
    run_cache elapsed_below calls (init limit ttl) = Some c
    /\ (0 <= size c <= limit)%Z
    /\ NoDup (cache_keys c).
Proof.
  intro Hlimit.
  assert (Hgen : forall (calls : list (cache_call Value Time)) (c : LRUCache Value Time),
             cache_ok limit c ->
             exists c', run_cache elapsed_below calls c = Some c' /\ cache_ok limit c').
  { clear calls. intro calls. induction calls as [|call rest IH]; intros c Hok.
    - exists c. now split.
    - destruct call as [key now|key value now|key|]; cbn [run_cache].
      + destruct (get_ok limit c key now Hok) as [c' [result [-> Hok']]]. now apply IH.
      + destruct (put_ok limit c key value now Hlimit Hok) as [c' [-> Hok']]. now apply IH.
      + apply IH. unfold delete. destruct (lookup key (cache c)); [|exact Hok].
        now apply remove_ok.
      + apply IH. destruct Hok as [Hmax _]. unfold clear, cache_ok, cache_keys.
        cbn [cache with_cache max_size]. split; [exact Hmax|]. split; [simpl; lia|constructor]. }
  destruct (Hgen calls (init limit ttl)) as [c [Hrun [_ [Hlen Hnd]]]].
  - unfold cache_ok, cache_keys, init. simpl. split; [reflexivity|].
    split; [lia|constructor].
  - exists c. split; [exact Hrun|]. split; [unfold size; lia|exact Hnd].
Qed.

(** X21.  A value that was put is returned by a later [get] of its key
    exactly while [later - now < ttl] holds; a [get] after that returns
    [None] and removes the entry. *)
Theorem cache_get_after_put (c c' : LRUCache Value Time) (key : string)
    (value : Value) (now later : Time) :
  put c key value now = Some c' ->
  exists c'',
    get elapsed_below c' key later
    = Some (c'', if elapsed_below later now (ttl c) then Some value else None)
    /\ lookup key (cache c'')
       = (if elapsed_below later now (ttl c) then Some (value, now) else None).
Proof.
  intro Hput.
  pose proof (put_lookup Value Time c c' key value now Hput) as Hlook.
  apply put_some in Hput.
  assert (Httl : ttl c' = ttl c) by (subst c'; reflexivity).
  unfold get, move_to_end. rewrite Hlook, Httl. cbn [snd fst].
  destruct (elapsed_below later now (ttl c)).
  - eexists. split; [reflexivity|]. cbn [cache with_cache].
    rewrite lookup_app, lookup_remove. simpl. now rewrite String.eqb_refl.
  - eexists. split; [reflexivity|]. cbn [cache with_cache]. apply lookup_remove.
Qed.

End CacheInvariant.

(** ** The rate limiter *)

Section LimiterBound.
Import RateLimiterModel.
Variable Time : Type.
Variable before_window : Time -> Time -> Z -> bool.

Lemma length_drop_outdated (now : Time) (w : Z) (q : list Time) :
  (List.length (drop_outdated before_window now w q) <= List.length q)%nat.
Proof.
  induction q as [|t rest IH]; simpl; [lia|].
  destruct (before_window t now w); simpl; lia.
Qed.

(** X22.  However the clock runs and whatever calls are made, the limiter
    never keeps more than [max_requests] timestamps for an identifier (and
    none when [max_requests] is negative). *)
Theorem limiter_queue_bounded (w m : Z) (calls : list (string * Time))
    (identifier : string) :
  (Z.of_nat (List.length (requests (run_limiter before_window calls (init w m)) identifier))
   <= Z.max 0 m)%Z.
Proof.
  assert (Hgen : forall (calls : list (string * Time)) (rl : RateLimiter Time),
             max_requests rl = m ->
             (forall id, (Z.of_nat (List.length (requests rl id)) <= Z.max 0 m)%Z) ->
             forall id,
               (Z.of_nat (List.length (requests (run_limiter before_window calls rl) id))
                <= Z.max 0 m)%Z).
  { clear calls identifier. intro calls.
    induction calls as [|[caller now] rest IH]; intros rl Hm Hall id; [apply Hall|].
    cbn [run_limiter]. apply IH.
    - unfold is_allowed. now destruct (_ <? _)%Z.
    - intro id'. unfold is_allowed.
      pose proof (length_drop_outdated now (window_size rl) (requests rl caller)) as Hdrop.
      specialize (Hall caller) as Hcaller.
      destruct (Z.ltb_spec
                  (Z.of_nat (List.length
                     (drop_outdated before_window now (window_size rl) (requests rl caller))))
                  (max_requests rl)) as [Hlt|Hge];
        cbn [fst requests set_queue];
        destruct (id' =? caller)%string; try apply Hall.
      + rewrite length_app. simpl. lia.
      + lia. }
  apply Hgen; [reflexivity|]. intro id. simpl. lia.
Qed.

End LimiterBound.

Section LimiterWindow.
Import PyStr RateLimiterModel.

Lemma q_before_window_spec (t now : Q) (w : Z) :
  q_before_window t now w = negb (Qle_bool (now - inject_Z w) t).
Proof. reflexivity. Qed.

Lemma filter_all (A : Type) (p : A -> bool) (l : list A) :
  Forall (fun x => p x = true) l -> filter p l = l.
Proof.
  induction 1 as [|x l Hx _ IH]; [reflexivity|]. simpl. now rewrite Hx, IH.
Qed.

Lemma filter_none (A : Type) (p : A -> bool) (l : list A) :
  Forall (fun x => p x = false) l -> filter p l = [].
Proof.
  induction 1 as [|x l Hx _ IH]; [reflexivity|]. simpl. now rewrite Hx.
Qed.

(** On a queue in time order the loop leaves exactly the timestamps of the
    window. *)
Lemma drop_outdated_window (now : Q) (w : Z) (q : list Q) :
  StronglySorted Qle q ->
  drop_outdated q_before_window now w q
  = filter (fun t => Qle_bool (now - inject_Z w) t) q.
Proof.
  induction 1 as [|t rest Hrest IH Ht]; [reflexivity|].
  cbn [drop_outdated filter]. rewrite q_before_window_spec.
  destruct (Qle_bool (now - inject_Z w) t) eqn:Hin; cbn [negb]; [|exact IH].
  f_equal. symmetry. apply filter_all.
  eapply Forall_impl; [|exact Ht]. intros u Hu. cbn beta.
  apply Qle_bool_iff. apply Qle_bool_iff in Hin. now apply Qle_trans with t.
Qed.

Lemma drop_outdated_split (now : Q) (w : Z) (q : list Q) :
  exists removed,
    q = (removed ++ drop_outdated q_before_window now w q)%list
    /\ Forall (fun t => Qle_bool (now - inject_Z w) t = false) removed.
Proof.
  induction q as [|t rest [removed [Hq Hremoved]]]; [exists []; now split|].
  cbn [drop_outdated]. rewrite q_before_window_spec.
  destruct (Qle_bool (now - inject_Z w) t) eqn:Hin; cbn [negb].
  - exists []. now split.
  - exists (t :: removed). split; [simpl; now f_equal|]. now constructor.
Qed.

Lemma sorted_drop_outdated (now : Q) (w : Z) (q : list Q) :
  StronglySorted Qle q -> StronglySorted Qle (drop_outdated q_before_window now w q).
Proof.
  induction 1 as [|t rest Hrest IH Ht]; [constructor|].
  cbn [drop_outdated]. destruct (q_before_window t now w); [exact IH|now constructor].
Qed.

Lemma in_drop_outdated (now : Q) (w : Z) (q : list Q) (t : Q) :
  In t (drop_outdated q_before_window now w q) -> In t q.
Proof.
  induction q as [|u rest IH]; [intros []|].
  cbn [drop_outdated]. destruct (q_before_window u now w); [|auto].
  intro H. right. now apply IH.
Qed.

Lemma sorted_snoc (q : list Q) (now : Q) :
  StronglySorted Qle q -> Forall (fun t => t <= now) q ->
  StronglySorted Qle (q ++ [now]).
Proof.
  induction 1 as [|t rest Hrest IH Ht]; intro Hle; simpl.
  - repeat constructor.
  - inversion Hle as [|? ? Htn Hrestn]; subst.
    constructor; [now apply IH|].
    apply Forall_app. split; [exact Ht|]. now repeat constructor.
Qed.

Lemma outdated_at_bound (bound now t : Q) (w : Z) :
  now <= bound ->
  Qle_bool (now - inject_Z w) t = false -> Qle_bool (bound - inject_Z w) t = false.
Proof.
  intros Hnow Hout.
  destruct (Qle_bool (bound - inject_Z w) t) eqn:Hin; [|reflexivity].
  apply Qle_bool_iff in Hin.
  assert (H : now - inject_Z w <= t) by lra.
  apply Qle_bool_iff in H. congruence.
Qed.

Lemma limiter_tracks (bound : Q) (w : Z) (identifier : string) :
  forall (calls : list (string * Q)) (rl : RateLimiter Q) (allowed : list Q),
    window_size rl = w ->
    queue_tracks bound w identifier rl allowed ->
    in_time_order calls ->
    Forall (fun c => snd c <= bound) calls ->
    Forall (fun t => Forall (fun c => t <= snd c) calls) (requests rl identifier) ->
    window_size (run_limiter q_before_window calls rl) = w
    /\ max_requests (run_limiter q_before_window calls rl) = max_requests rl
    /\ queue_tracks bound w identifier (run_limiter q_before_window calls rl)
         (allowed ++ allowed_times q_before_window identifier calls rl)%list.
Proof.
  intro calls. induction calls as [|[caller now] rest IH];
    intros rl allowed Hw Htracks Horder Hbound Hearlier.
  - simpl. rewrite app_nil_r. now repeat split.
  - cbn [run_limiter allowed_times].
    apply StronglySorted_inv in Horder as [Hrest_order Hnow_first].
    pose proof (Forall_inv Hbound) as Hnow_bound.
    pose proof (Forall_inv_tail Hbound) as Hrest_bound.
    cbn [snd] in Hnow_bound.
    destruct (is_allowed q_before_window rl caller now) as [rl' ok] eqn:Hstep.
    cbn [fst].
    assert (Hrl' : window_size rl' = window_size rl /\ max_requests rl' = max_requests rl).
    { unfold is_allowed in Hstep. destruct (_ <? _)%Z; injection Hstep as <- _; now split. }
    destruct Hrl' as [Hw' Hm'].
    destruct (caller =? identifier)%string eqn:Hcaller.
    + apply String.eqb_eq in Hcaller. subst caller.
      destruct Htracks as [dropped [Hallowed [Hdropped Hsorted]]].
      destruct (drop_outdated_split now (window_size rl) (requests rl identifier))
        as [removed [Hsplit Hremoved]].
      set (q := drop_outdated q_before_window now (window_size rl)
                  (requests rl identifier)) in *.
      assert (Hq_sorted : StronglySorted Qle q) by now apply sorted_drop_outdated.
      assert (Hq_le : Forall (fun t => t <= now) q).
      { apply Forall_forall. intros t Ht. apply in_drop_outdated in Ht.
        rewrite Forall_forall in Hearlier. specialize (Hearlier t Ht).
        exact (Forall_inv Hearlier). }
      assert (Hq_rest : Forall (fun t => Forall (fun c => t <= snd c) rest) q).
      { apply Forall_forall. intros t Ht. apply in_drop_outdated in Ht.
        rewrite Forall_forall in Hearlier. specialize (Hearlier t Ht).
        exact (Forall_inv_tail Hearlier). }
      assert (Hdropped' : Forall (fun t => Qle_bool (bound - inject_Z w) t = false)
                            (dropped ++ removed)).
      { apply Forall_app. split; [exact Hdropped|].
        eapply Forall_impl; [|exact Hremoved]. intros t Ht. cbn beta in *.
        rewrite Hw in Ht. now apply outdated_at_bound with now. }
      unfold is_allowed in Hstep. fold q in Hstep.
      destruct (Z.of_nat (List.length q) <? max_requests rl)%Z;
        injection Hstep as <- <-; cbn [andb].
      * specialize (IH (set_queue rl identifier (q ++ [now])%list) (allowed ++ [now])%list).
        assert (Hcons : forall later : list Q,
                   (allowed ++ now :: later = (allowed ++ [now]) ++ later)%list)
          by (intro later; now rewrite <- app_assoc).
        rewrite Hcons.
        change (max_requests rl)
          with (max_requests (set_queue rl identifier (q ++ [now])%list)).
        apply IH; try assumption.
        -- exists (dropped ++ removed)%list. cbn [requests set_queue].
           rewrite String.eqb_refl. split; [|split].
           ++ rewrite Hallowed, Hsplit. now rewrite !app_assoc.
           ++ exact Hdropped'.
           ++ now apply sorted_snoc.
        -- cbn [requests set_queue]. rewrite String.eqb_refl.
           apply Forall_app. split; [exact Hq_rest|].
           constructor; [|constructor].
           eapply Forall_impl; [|exact Hnow_first]. intros c Hc. exact Hc.
      * specialize (IH (set_queue rl identifier q) allowed).
        change (max_requests rl) with (max_requests (set_queue rl identifier q)).
        apply IH; try assumption.
        -- exists (dropped ++ removed)%list. cbn [requests set_queue].
           rewrite String.eqb_refl. split; [|split; assumption].
           rewrite Hallowed, Hsplit. now rewrite app_assoc.
        -- cbn [requests set_queue]. now rewrite String.eqb_refl.
    + rewrite andb_false_r.
      assert (Hsame : requests rl' identifier = requests rl identifier).
      { unfold is_allowed in Hstep.
        destruct (_ <? _)%Z; injection Hstep as <- _; cbn [requests set_queue];
          rewrite String.eqb_sym, Hcaller; reflexivity. }
      rewrite <- Hm'. apply IH; try assumption.
      * now rewrite Hw'.
      * destruct Htracks as [dropped [Hallowed [Hdropped Hsorted]]].
        exists dropped. rewrite Hsame. now repeat split.
      * rewrite Hsame. eapply Forall_impl; [|exact Hearlier].
        intros t Ht. exact (Forall_inv_tail Ht).
Qed.

(** X23.  With exact clock readings that never run backwards and a window
    of [window_size >= 0] seconds, the limiter keeps its promise: when it
    allows a call, that call and the earlier allowed calls of the same
    identifier made within the last [window_size] seconds are at most
    [max_requests] together. *)
Theorem limiter_window_respected (w m : Z) (calls : list (string * Q))
    (identifier : string) (now : Q) :
  (0 <= w)%Z ->
  in_time_order (calls ++ [(identifier, now)]) ->
  snd (is_allowed q_before_window (run_limiter q_before_window calls (init w m))
         identifier now) = true ->
  (Z.of_nat (List.length
     (filter (fun t => Qle_bool (now - inject_Z w) t)
        (allowed_times q_before_window identifier calls (init w m)))) + 1 <= m)%Z.
Proof.
  intros Hw Horder Hallowed.
  assert (Hcalls : in_time_order calls /\ Forall (fun c => snd c <= now) calls).
  { clear Hallowed. unfold in_time_order in *.
    induction calls as [|c rest IH]; [split; constructor|].
    simpl in Horder. apply StronglySorted_inv in Horder as [Hrest Hc].
    destruct (IH Hrest) as [Hsorted Hle].
    apply Forall_app in Hc as [Hc Hlast]. pose proof (Forall_inv Hlast) as Hcn.
    split; constructor; assumption. }
  destruct Hcalls as [Hsorted Hle].
  destruct (limiter_tracks now w identifier calls (init w m) []) as [Hw' [Hm' Htracks]];
    try assumption; try reflexivity.
  - exists []. simpl. repeat split; constructor.
  - constructor.
  - cbn [app] in Htracks. destruct Htracks as [dropped [Hsplit [Hdropped Hq]]].
    rewrite Hsplit, filter_app.
    rewrite (filter_none _ (fun t => Qle_bool (now - inject_Z w) t) _ Hdropped).
    cbn [app].
    rewrite <- (drop_outdated_window now w _ Hq).
    unfold is_allowed in Hallowed. rewrite Hw', Hm' in Hallowed.
    destruct (Z.ltb_spec
                (Z.of_nat (List.length
                   (drop_outdated q_before_window now w
                      (requests (run_limiter q_before_window calls (init w m)) identifier))))
                (max_requests (@init Q w m))) as [Hlt|Hge].
    + simpl in Hlt. lia.
    + simpl in Hallowed. discriminate Hallowed.
Qed.

End LimiterWindow.

(** ** Source citations *)

Section SourceCitations.
Import PyStr ResponseFormatter.

Lemma append_nonempty_longer (a b : string) :
  truthy b = true -> (String.length a < String.length (a ++ b))%nat.
Proof.
  intro Hb. rewrite string_length_app. destruct b; [discriminate|simpl; lia].
Qed.

Lemma source_lines_prefix (cited_chunks : list CitedChunk) :
  forall (i : nat) (sources_text : string),
    exists more, source_lines cited_chunks i sources_text = sources_text ++ more.
Proof.
  induction cited_chunks as [|chunk rest IH]; intros i sources_text; simpl.
  - exists EmptyString. clear. induction sources_text; simpl; [reflexivity|now f_equal].
  - destruct (IH (S i) (sources_text ++ (source_info i chunk ++ String "010" EmptyString)))
      as [more ->].
    eexists. apply string_app_assoc.
Qed.

Lemma format_sources_nonempty (chunk : CitedChunk) (rest : list CitedChunk) :
  truthy (format_sources (chunk :: rest)) = true.
Proof.
  unfold format_sources.
  destruct (source_lines_prefix (chunk :: rest) 1
              (String "010" (String "010" ("Sources:" ++ String "010" EmptyString))))
    as [more ->].
  reflexivity.
Qed.

(** X24.  [enhance_response_with_sources] never alters the answer: the
    answer is a prefix of what it returns; and it returns the answer
    itself exactly when no chunk is cited or the answer says, in any
    letter case, "not available in the book". *)
Theorem enhance_response_keeps_answer (response : string)
    (cited_chunks : list CitedChunk) :
  prefix response (enhance_response_with_sources response cited_chunks) = true
  /\ (enhance_response_with_sources response cited_chunks = response
      <-> cited_chunks = []
          \/ contains "not available in the book" (lower response) = true).
Proof.
  assert (Hself : prefix response response = true).
  { clear. induction response as [|c r IH]; [reflexivity|].
    simpl. destruct (ascii_dec c c); [exact IH|contradiction]. }
  unfold enhance_response_with_sources.
  destruct cited_chunks as [|chunk rest].
  - split; [exact Hself|]. split; [now left|reflexivity].
  - destruct (contains "not available in the book" (lower response)).
    + split; [exact Hself|]. split; [now right|reflexivity].
    + split; [apply prefix_self_app|]. split.
      * intro H. exfalso.
        pose proof (append_nonempty_longer response (format_sources (chunk :: rest))
                      (format_sources_nonempty chunk rest)) as Hlen.
        rewrite H in Hlen. lia.
      * intros [H|H]; discriminate H.
Qed.

End SourceCitations.

(** ** Runs on concrete inputs *)

Lemma chunk_document_records_witness :
  exists records,
    @ChunkingUtils.chunk_document (append "urn:uuid:") (keyed_hash 1) char_tokenizer
      "abcdef" "docs/intro.md" "doc" "Intro" "docs" "intro" "tokens" 3 0
    = Some records
    /\ map ChunkingUtils.content records = ["abc"; "def"]
    /\ option_map ChunkingUtils.metadata (nth_error records 1)
       = Some (Some {| ChunkingUtils.chunk_index := 1;
                       ChunkingUtils.total_chunks := 2;
                       ChunkingUtils.method := "tokens" |}).
Proof.
  destruct (@ChunkingUtils.chunk_document (append "urn:uuid:") (keyed_hash 1)
              char_tokenizer "abcdef" "docs/intro.md" "doc" "Intro" "docs" "intro"
              "tokens" 3 0) as [records|] eqn:Hdoc; [|discriminate Hdoc].
  exists records. split; [reflexivity|].
  destruct (@chunk_document_records char_tokenizer _ _ _ _ _ _ _ _ _ _ _ _ Hdoc)
    as [Hchunks Hrecords].
  injection Hdoc as <-. split; [reflexivity|]. reflexivity.
Defined.

Lemma cache_put_order_witness :
  exists c',
    Cache.put two_entries "b" "z" 3 = Some c'
    /\ cache_keys c' = ["b"]
    /\ Cache.lookup "b" (Cache.cache c') = Some ("z", 3).
Proof.
  destruct (Cache.put two_entries "b" "z" 3) as [c'|] eqn:Hput; [|discriminate Hput].
  exists c'. split; [reflexivity|].
  destruct (cache_put_order string Q two_entries c' "b" "z" 3 Hput) as [Hkeys [Hlook _]].
  split; [exact Hkeys|exact Hlook].
Defined.

Lemma cache_size_bounded_witness :
  (1 <= 2)%Z /\
  exists c,
    run_cache q_elapsed_below
      [CallPut "a" "x" 1; CallPut "b" "y" 2; CallGet "a" 3; CallPut "c" "z" 4]
      (Cache.init 2 60) = Some c
    /\ (0 <= Cache.size c <= 2)%Z
    /\ NoDup (cache_keys c).
Proof.
  split; [lia|].
  apply (cache_size_bounded string Q q_elapsed_below 2 60). lia.
Defined.

Lemma cache_get_after_put_witness :
  exists c' c'',
    Cache.put two_entries "b" "z" 3 = Some c'
    /\ Cache.get q_elapsed_below c' "b" 70 = Some (c'', None)
    /\ Cache.lookup "b" (Cache.cache c'') = None.
Proof.
  destruct (Cache.put two_entries "b" "z" 3) as [c'|] eqn:Hput; [|discriminate Hput].
  destruct (cache_get_after_put string Q q_elapsed_below two_entries c' "b" "z" 3 70 Hput)
    as [c'' [Hget Hlook]].
  exists c', c''. split; [reflexivity|]. split; [exact Hget|exact Hlook].
Defined.

Lemma limiter_window_respected_witness :
  (0 <= 10)%Z
  /\ in_time_order ([("u", 0%Q); ("u", 4%Q)] ++ [("u", 5%Q)])
  /\ (Z.of_nat (List.length
         (filter (fun t => Qle_bool (5%Q - inject_Z 10) t)
            (allowed_times q_before_window "u" [("u", 0%Q); ("u", 4%Q)]
               (RateLimiterModel.init 10 3)))) + 1 <= 3)%Z.
Proof.
  assert (Horder : in_time_order ([("u", 0%Q); ("u", 4%Q)] ++ [("u", 5%Q)]))
    by (repeat constructor; simpl; unfold Qle; simpl; lia).
  split; [lia|]. split; [exact Horder|].
  apply (limiter_window_respected 10 3 [("u", 0%Q); ("u", 4%Q)] "u" 5%Q);
    [lia | exact Horder | reflexivity].
Defined.

(** ** Bounds of the selected-text verdict *)

Section VerdictBounds.
Import PyStr Validation.

Lemma filter_disjoint_length (A : Type) (p q : A -> bool) (l : list A) :
  (forall x, p x && q x = false) ->
  (List.length (filter p l) + List.length (filter q l) <= List.length l)%nat.
Proof.
  intro Hpq. induction l as [|x l IH]; simpl; [lia|].
  specialize (Hpq x). destruct (p x), (q x); simpl in *; try discriminate; lia.
Qed.

Lemma unsupported_supported_disjoint (selected_text sentence : string) :
  unsupported selected_text sentence && supported selected_text sentence = false.
Proof.
  unfold unsupported, supported.
  destruct (0 <? List.length (long_words sentence))%nat; [|reflexivity]. cbn [andb].
  destruct (Nat.ltb_spec (10 * overlap selected_text sentence)
              (3 * List.length (long_words sentence)));
    destruct (Nat.leb_spec (3 * List.length (long_words sentence))
                (10 * overlap selected_text sentence)); (reflexivity || lia).
Qed.

Lemma py_min_cap_bounds (a b : nat) : 0 <= py_min 1 (py_div a b) <= 1.
Proof.
  unfold py_min, Qltb.
  assert (Hpos : 0 <= py_div a b) by (unfold py_div, Qle; simpl; lia).
  destruct (Qle_bool 1 (py_div a b)) eqn:Hle; simpl.
  - split; [unfold Qle; simpl; lia|apply Qle_refl].
  - split; [exact Hpos|]. apply Qlt_le_weak, Qnot_le_lt.
    intro Hc. apply Qle_bool_iff in Hc. congruence.
Qed.

(** X25.  Every verdict of [validate_selected_text_response] has a
    confidence between 0 and 1, and where it reports the sentence counts,
    no sentence is counted as both valid and invalid: the two counts
    together do not exceed the total. *)
Theorem selected_text_verdict_bounds (response selected_text : string) :
  let verdict := validate_selected_text_response response selected_text in
  0 <= confidence verdict <= 1
  /\ match breakdown verdict with
     | Some counts =>
         (valid_sentences_count counts + invalid_sentences_count counts
          <= total_sentences counts)%nat
     | None => True
     end.
Proof.
  assert (Hzero : 0 <= 0 <= 1) by (split; unfold Qle; simpl; lia).
  assert (Hone : 0 <= 1 <= 1) by (split; unfold Qle; simpl; lia).
  destruct (truthy response) eqn:Hresp.
  2:{ unfold validate_selected_text_response. rewrite Hresp. simpl. now split. }
  destruct (truthy selected_text) eqn:Hsel.
  2:{ unfold validate_selected_text_response. rewrite Hresp, Hsel. simpl. now split. }
  destruct (any_in external_indicators (lower response)) eqn:Hind.
  - rewrite (validate_selected_text_response_indicator response selected_text Hind Hsel).
    simpl. now split.
  - rewrite (validate_selected_text_response_counts response selected_text Hresp Hsel Hind).
    cbn [confidence breakdown valid_sentences_count invalid_sentences_count total_sentences].
    split.
    + destruct (0 <? _)%nat; [apply py_min_cap_bounds|exact Hzero].
    + rewrite Nat.add_comm. apply filter_disjoint_length.
      intro s. apply unsupported_supported_disjoint.
Qed.

End VerdictBounds.
